(** * teamcity-ts: the XML document model and the Construct tree

    A shallow embedding of [lib/xml.ts] ([XmlDocument], [XmlElement],
    [parseArgs]) and of [lib/construct.ts] ([Construct]), followed by the
    properties of these two files that the specification relies on.

    JavaScript objects are mutable and shared, so elements, documents and
    constructs live in a store and are named by references; a method is a
    function from the store to the store and an outcome (a returned value or
    a thrown error). *)

From stdpp Require Import gmap strings list fin_maps pretty.
From Stdlib Require Ascii.

Set Default Proof Using "Type".
Set Warnings "-register-all".

(* ================================================================== *)
(** * Part I: definitions                                              *)
(* ================================================================== *)

(** ** JavaScript strings *)

Module JsString.

(** The double-quote character, code unit 34. *)
Definition dquote : Ascii.ascii :=
  Ascii.Ascii false true false false false true false false.

(** [s.replaceAll(c, rep)] for a search string made of the single
    character [c]: every occurrence of [c], left to right, is replaced. *)
Fixpoint replaceAll (c : Ascii.ascii) (rep : string) (s : string) : string :=
  match s with
  | EmptyString => EmptyString
  | String x s' =>
      if decide (x = c) then rep +:+ replaceAll c rep s'
      else String x (replaceAll c rep s')
  end.

(** [xs.join] with the empty separator. *)
Definition join (xs : list string) : string :=
  foldr String.append EmptyString xs.

(** A template literal hole [${v}] filled with a [string | undefined]. *)
Definition interpolate (v : option string) : string :=
  match v with
  | Some s => s
  | None => "undefined"
  end.

(** Does the character occur in the string? *)
Fixpoint occurs (c : Ascii.ascii) (s : string) : bool :=
  match s with
  | EmptyString => false
  | String x s' => bool_decide (x = c) || occurs c s'
  end.

End JsString.

(** ** The store of XML objects *)

Module Xml.

(** References are indices. *)
Abbreviation ref := nat (only parsing).

(** A [Record<string, string>], as [Object.entries] enumerates it. The
    record is held by value: nothing below depends on two elements
    sharing one attributes object. *)
Definition Attributes := list (string * string).

(** [parent?: XmlDocument | XmlElement] *)
Inductive Parent :=
| ParentDocument (d : ref)
| ParentElement (e : ref).

Record XmlElement := mkXmlElement {
  name : string;
  attributes : option Attributes;
  content : option string;
  parent : option Parent;
  children : list ref
}.

Record XmlDocument := mkXmlDocument {
  root : option ref
}.

(** A reference is an index into the list of objects of its class; an
    object, once allocated, is never removed. *)
Record Heap := mkHeap {
  heap_elements : list XmlElement;
  heap_documents : list XmlDocument
}.

Definition empty_heap : Heap := mkHeap [] [].

(** [throw new Error(message)] *)
Inductive Error := mkError (message : string).

Inductive Outcome (A : Type) :=
| Returned (a : A)
| Thrown (e : Error).
Arguments Returned {A} a.
Arguments Thrown {A} e.

(** A computation on the store. The store is kept when an error is
    thrown: what was mutated before the throw stays mutated. *)
Definition M (A : Type) : Type := Heap → Heap * Outcome A.

Definition ret {A} (a : A) : M A := λ h, (h, Returned a).

Definition throw {A} (e : Error) : M A := λ h, (h, Thrown e).

Definition bind {A B} (m : M A) (k : A → M B) : M B := λ h,
  match m h with
  | (h', Returned a) => k a h'
  | (h', Thrown e) => (h', Thrown e)
  end.

Declare Scope js_scope.
Delimit Scope js_scope with js.
Notation "x <- m ;; k" := (bind m (λ x, k))
  (at level 100, m at next level, right associativity) : js_scope.
Notation "m ;; k" := (bind m (λ _, k))
  (at level 100, right associativity) : js_scope.
Local Open Scope js_scope.

(** A callback [(parent: XmlElement) => void]: arbitrary code that runs
    on the store and may throw. *)
Definition Builder : Type := ref → M unit.

(** A value passed in [...args: unknown[]], told apart the way the code
    tells values apart: [instanceof XmlElement] and [typeof]. An
    [ArgObject] is any other non-null object, given by its entries. *)
Inductive Arg :=
| ArgString (s : string)
| ArgObject (o : Attributes)
| ArgFunction (b : Builder)
| ArgElement (e : ref)
| ArgNull
| ArgUndefined
| ArgOther.

Inductive JsType := TString | TObject | TFunction | TUndefined | TOther.

Global Instance JsType_eq_dec : EqDecision JsType.
Proof. solve_decision. Defined.

Definition typeof (a : option Arg) : JsType :=
  match a with
  | Some (ArgString _) => TString
  | Some (ArgObject _) | Some (ArgElement _) | Some ArgNull => TObject
  | Some (ArgFunction _) => TFunction
  | Some ArgUndefined | None => TUndefined
  | Some ArgOther => TOther
  end.

(** The cast [args[1] as Record<string, string>]. The declared overloads
    pass an attributes record here. An element instance in this position
    is outside them: the code would keep that element object as the
    attributes, and [toString] would fail on its entries; here it is given
    no entries, and nothing below is stated about such a call. *)
Definition as_record (a : option Arg) : Attributes :=
  match a with
  | Some (ArgObject o) => o
  | _ => []
  end.

Definition as_string (a : option Arg) : option string :=
  match a with
  | Some (ArgString s) => Some s
  | _ => None
  end.

Definition as_function (a : option Arg) : option Builder :=
  match a with
  | Some (ArgFunction b) => Some b
  | _ => None
  end.

Definition is_null (a : option Arg) : bool :=
  match a with
  | Some ArgNull => true
  | _ => false
  end.

Record NodeArgs := mkNodeArgs {
  na_name : string;
  na_content : option string;
  na_attributes : option Attributes;
  na_builder : option Builder
}.

Definition no_args_error : Error := mkError "No args to parse".
Definition no_name_error : Error := mkError "an element name must be provided".
Definition duplicate_root_error : Error :=
  mkError "An XmlDocument can only have a single root node".

(** [function parseArgs(...args: unknown[]): NodeArgs]; reading past the
    end of [args] gives [undefined]. *)
Definition parseArgs (args : list Arg) : Error + NodeArgs :=
  if decide (length args = 0) then inl no_args_error
  else
    match as_string (args !! 0) with
    | None => inl no_name_error
    | Some name =>
        let content :=
          if decide (typeof (args !! 1) = TString) then as_string (args !! 1)
          else if decide (typeof (args !! 2) = TString) then as_string (args !! 2)
          else None in
        let attributes :=
          if bool_decide (typeof (args !! 1) = TObject) && negb (is_null (args !! 1))
          then Some (as_record (args !! 1))
          else None in
        let builder :=
          if decide (typeof (args !! 1) = TFunction) then as_function (args !! 1)
          else if decide (typeof (args !! 2) = TFunction) then as_function (args !! 2)
          else if decide (typeof (args !! 3) = TFunction) then as_function (args !! 3)
          else None in
        inr (mkNodeArgs name content attributes builder)
    end.

(** *** Reading and writing fields *)

Definition alloc_element (e : XmlElement) : M ref := λ h,
  (mkHeap (heap_elements h ++ [e]) (heap_documents h),
   Returned (length (heap_elements h))).

Definition alloc_document (d : XmlDocument) : M ref := λ h,
  (mkHeap (heap_elements h) (heap_documents h ++ [d]),
   Returned (length (heap_documents h))).

Definition modify_element (r : ref) (f : XmlElement → XmlElement) : M unit :=
  λ h, (mkHeap (alter f r (heap_elements h)) (heap_documents h), Returned tt).

Definition modify_document (r : ref) (f : XmlDocument → XmlDocument) : M unit :=
  λ h, (mkHeap (heap_elements h) (alter f r (heap_documents h)), Returned tt).

Definition set_attributes (v : option Attributes) (e : XmlElement) : XmlElement :=
  mkXmlElement (name e) v (content e) (parent e) (children e).

Definition set_content (v : option string) (e : XmlElement) : XmlElement :=
  mkXmlElement (name e) (attributes e) v (parent e) (children e).

Definition set_parent (v : option Parent) (e : XmlElement) : XmlElement :=
  mkXmlElement (name e) (attributes e) (content e) v (children e).

(** [this.children.push(node)] *)
Definition push_child (node : ref) (e : XmlElement) : XmlElement :=
  mkXmlElement (name e) (attributes e) (content e) (parent e) (children e ++ [node]).

Definition set_root (v : option ref) (d : XmlDocument) : XmlDocument :=
  mkXmlDocument v.

(** [this.root], [undefined] when unset. *)
Definition get_root (this : ref) (h : Heap) : option ref :=
  d ← heap_documents h !! this; root d.

(** *** class XmlElement *)

(** [new XmlElement(...args)]. The object under construction cannot be
    reached by anyone before [parseArgs] has returned, so it enters the
    store at that point, [children] already initialised to [[]]. *)
Definition XmlElement_new (args : list Arg) : M ref :=
  match parseArgs args with
  | inl err => throw err
  | inr a =>
      this <- alloc_element
                (mkXmlElement (na_name a) (na_attributes a) (na_content a) None []) ;;
      match na_builder a with
      | Some builder => (builder this ;; ret this)
      | None => ret this
      end
  end.

(** The element a [Node(...args)] call is about: the one passed in, or a
    new one made from the parsed arguments. Both [Node] methods start
    with this same text. *)
Definition node_of_args (args : list Arg) : M ref :=
  match args !! 0 with
  | Some (ArgElement e) => ret e
  | _ =>
      match parseArgs args with
      | inl err => throw err
      | inr a =>
          node <- XmlElement_new [ArgString (na_name a)] ;;
          modify_element node (set_attributes (na_attributes a)) ;;
          modify_element node (set_content (na_content a)) ;;
          match na_builder a with
          | Some builder => (builder node ;; ret node)
          | None => ret node
          end
      end
  end.

(** [XmlElement.prototype.Node] *)
Definition XmlElement_Node (this : ref) (args : list Arg) : M ref :=
  node <- node_of_args args ;;
  modify_element node (set_parent (Some (ParentElement this))) ;;
  modify_element this (push_child node) ;;
  ret node.

Definition comment_name : string := "--".
Definition cdata_name : string := "CDATA".

(** [XmlElement.prototype.Comment] *)
Definition XmlElement_Comment (this : ref) (value : string) : M ref :=
  XmlElement_Node this [ArgString comment_name; ArgString value].

(** [XmlElement.prototype.CDATA] *)
Definition XmlElement_CDATA (this : ref) (value : string) : M ref :=
  XmlElement_Node this [ArgString cdata_name; ArgString value].

(** *** class XmlDocument *)

(** [XmlDocument.prototype.Node] *)
Definition XmlDocument_Node (this : ref) (args : list Arg) : M ref := λ h,
  match get_root this h with
  | Some _ => throw duplicate_root_error h
  | None =>
      (node <- node_of_args args ;;
       modify_element node (set_parent (Some (ParentDocument this))) ;;
       modify_document this (set_root (Some node)) ;;
       ret node) h
  end.

(** [new XmlDocument(builder)] *)
Definition XmlDocument_new (builder : ref → M unit) : M ref :=
  this <- alloc_document (mkXmlDocument None) ;;
  builder this ;;
  ret this.

(** *** Serialisation *)

(** The escaping [toString] applies to an attribute value: [replaceAll]
    of the double quote by [&quot;]. *)
Definition escape (v : string) : string :=
  JsString.replaceAll JsString.dquote "&quot;" v.

(** One attribute as [toString] pushes it. *)
Definition render_attribute (kv : string * string) : string :=
  " " +:+ kv.1 +:+ "=" +:+ String JsString.dquote
    (escape kv.2 +:+ String JsString.dquote EmptyString).

Definition render_attributes (a : option Attributes) : list string :=
  match a with
  | Some entries => render_attribute <$> entries
  | None => []
  end.

Section toString.

(** The pretty printer imported from [deps.ts], with the options of the
    call fixed. *)
Variable xmlFmt : string → string.

(** [XmlElement.prototype.toString]. The recursion follows [children]
    through the store with no bound of its own; [fuel] bounds its
    depth, and [None] means the bound was reached (or a reference
    points nowhere). *)
Fixpoint XmlElement_toString (fuel : nat) (h : Heap) (this : ref) (fmt : bool)
    : option string :=
  match fuel with
  | O => None
  | S fuel' =>
      e ← heap_elements h !! this;
      xml ←
        (if decide (name e = comment_name) then
           Some ["<!-- " +:+ JsString.interpolate (content e) +:+ " -->"]
         else if decide (name e = cdata_name) then
           Some ["<![CDATA[" +:+ JsString.interpolate (content e) +:+ "]]>"]
         else
           let xml := ["<" +:+ name e] ++ render_attributes (attributes e) in
           if bool_decide (length (children e) = 0) && bool_decide (content e = None) then
             Some (xml ++ [" />"])
           else
             rendered ← mapM (λ child, XmlElement_toString fuel' h child false)
                             (children e);
             Some (xml ++ [">"] ++ rendered
                     ++ match content e with Some c => [c] | None => [] end
                     ++ ["</" +:+ name e +:+ ">"]));
      Some (if fmt then xmlFmt (JsString.join xml) else JsString.join xml)
  end.

(** [XmlDocument.prototype.toString] *)
Definition XmlDocument_toString (fuel : nat) (h : Heap) (this : ref) (fmt : bool)
    : option string :=
  match get_root this h with
  | Some r => XmlElement_toString fuel h r fmt
  | None => Some EmptyString
  end.

End toString.

(** The text of an opening tag, up to but excluding [>] or [ />]. *)
Definition open_tag (e : XmlElement) : string :=
  "<" +:+ name e +:+ JsString.join (render_attributes (attributes e)).

(** The plain object [toJSON] returns: [name] and [children] always,
    [attributes] and [content] only when set. *)
Inductive Json :=
| JsonObject (j_name : string) (j_children : list Json)
             (j_attributes : option Attributes) (j_content : option string).

(** [XmlElement.prototype.toJSON] *)
Fixpoint XmlElement_toJSON (fuel : nat) (h : Heap) (this : ref) : option Json :=
  match fuel with
  | O => None
  | S fuel' =>
      e ← heap_elements h !! this;
      cs ← mapM (XmlElement_toJSON fuel' h) (children e);
      Some (JsonObject (name e) cs (attributes e) (content e))
  end.

(** Modelled from the spec: the loop of the rebuilding helper below over
    the [children] of the projection; each child is rebuilt, then attached
    with [Node(element)]. *)
Section attach_all.
Variable rebuild : Json → M ref.
Variable this : ref.

Fixpoint attach_all (cs : list Json) : M unit :=
  match cs with
  | [] => ret tt
  | j :: cs' =>
      child <- rebuild j ;;
      XmlElement_Node this [ArgElement child] ;;
      attach_all cs'
  end.
End attach_all.

(** Modelled from the spec: the helper of the test harness that rebuilds
    an element from the [toJSON] projection ("name, optional attributes,
    optional content, children, recursively"); the repository has no such
    function. It makes a new element of that name, assigns the two
    optional fields, and attaches the rebuilt children in order. *)
Fixpoint fromJSON (j : Json) : M ref :=
  match j with
  | JsonObject n cs a c =>
      this <- XmlElement_new [ArgString n] ;;
      modify_element this (set_attributes a) ;;
      modify_element this (set_content c) ;;
      attach_all fromJSON this cs ;;
      ret this
  end.

(** An element tree: everything below [r] is allocated and is reached
    in fewer than [depth] steps along [children]. *)
Fixpoint is_tree (depth : nat) (h : Heap) (r : ref) : bool :=
  match depth with
  | O => false
  | S depth' =>
      match heap_elements h !! r with
      | Some e => forallb (is_tree depth' h) (children e)
      | None => false
      end
  end.

(** What [toString] and [toJSON] read of an element: all but [parent]. *)
Definition shape (e : XmlElement) : string * option Attributes * option string * list ref :=
  (name e, attributes e, content e, children e).

(** Arguments that [Node] rejects outright: none at all, or a first one
    that is neither a string nor an element. *)
Definition malformed (args : list Arg) : bool :=
  match args with
  | [] => true
  | ArgString _ :: _ | ArgElement _ :: _ => false
  | _ => true
  end.

(** The error [parseArgs] throws on them. *)
Definition shape_error (args : list Arg) : Error :=
  match args with
  | [] => no_args_error
  | _ => no_name_error
  end.

(** Two stores agree on the shape of the elements in [[lo, hi)]. *)
Definition same_shapes (lo hi : nat) (h h' : Heap) : Prop :=
  ∀ q, lo ≤ q < hi → shape <$> heap_elements h' !! q = shape <$> heap_elements h !! q.

(** [children.push] of several elements. *)
Definition push_children (new : list ref) (e : XmlElement) : XmlElement :=
  mkXmlElement (name e) (attributes e) (content e) (parent e) (children e ++ new).

(** [fromJSON j], run on any store, returns a new element that renders
    as [s], and keeps rendering as [s] as long as the elements it
    created keep their shape. *)
Definition rebuilds (xmlFmt : string → string) (n : nat) (j : Json) (s : string) : Prop :=
  ∀ h0, ∃ h1,
    fromJSON j h0 = (h1, Returned (length (heap_elements h0))) ∧
    length (heap_elements h0) < length (heap_elements h1) ∧
    heap_documents h1 = heap_documents h0 ∧
    (∀ q, q < length (heap_elements h0) → heap_elements h1 !! q = heap_elements h0 !! q) ∧
    (∀ h', same_shapes (length (heap_elements h0)) (length (heap_elements h1)) h1 h' →
           XmlElement_toString xmlFmt n h' (length (heap_elements h0)) false = Some s).

(** A builder, like all code, only ever adds objects to the store. *)
Definition grows (h h' : Heap) : Prop :=
  length (heap_elements h) ≤ length (heap_elements h') ∧
  length (heap_documents h) ≤ length (heap_documents h').

(** The run of an optional builder on [node] from store [h] returned
    normally and left store [h']. *)
Definition builder_returns (b : option Builder) (node : ref) (h h' : Heap) : Prop :=
  match b with
  | Some f => f node h = (h', Returned tt) ∧ grows h h'
  | None => h' = h
  end.

(** The store right after [Node] has created the element for parsed
    arguments [a] and assigned its fields, before the builder runs. *)
Definition with_new_element (a : NodeArgs) (h : Heap) : Heap :=
  mkHeap (heap_elements h ++ [mkXmlElement (na_name a) (na_attributes a) (na_content a) None []])
         (heap_documents h).

(** [node.parent = this; this.children.push(node)] *)
Definition attach_child (this node : ref) (h : Heap) : Heap :=
  mkHeap (alter (push_child node) this
            (alter (set_parent (Some (ParentElement this))) node (heap_elements h)))
         (heap_documents h).

(** [node.parent = this; this.root = node] *)
Definition attach_root (this node : ref) (h : Heap) : Heap :=
  mkHeap (alter (set_parent (Some (ParentDocument this))) node (heap_elements h))
         (alter (set_root (Some node)) this (heap_documents h)).

End Xml.

(** ** The Construct tree *)

Module Construct.

Abbreviation ref := nat (only parsing).

(** A key of [_xmlBuilders]: [symbol | Function], compared by identity. *)
Inductive Key :=
| KeySymbol (id : nat)
| KeyFunction (id : nat).

Global Instance Key_eq_dec : EqDecision Key.
Proof. solve_decision. Defined.

(** A JavaScript [Map]: entries in insertion order, one per key. *)
Section JsMap.
Context {K V : Type} `{EqDecision K}.

Definition Map_has (m : list (K * V)) (k : K) : bool :=
  bool_decide (k ∈ m.*1).

Fixpoint Map_get (m : list (K * V)) (k : K) : option V :=
  match m with
  | [] => None
  | (k', v') :: m' => if decide (k' = k) then Some v' else Map_get m' k
  end.

(** [set] on a present key keeps the entry's position. *)
Fixpoint Map_set (m : list (K * V)) (k : K) (v : V) : list (K * V) :=
  match m with
  | [] => [(k, v)]
  | (k', v') :: m' =>
      if decide (k' = k) then (k, v) :: m' else (k', v') :: Map_set m' k v
  end.

(** What one call of [_addXmlBuilder] does to the map. *)
Definition add_if_absent (m : list (K * V)) (kv : K * V) : list (K * V) :=
  if Map_has m kv.1 then m else Map_set m kv.1 kv.2.

(** [kv] is the first entry of [regs] for its key. *)
Definition first_for (regs : list (K * V)) (kv : K * V) : Prop :=
  ∃ pre post, regs = pre ++ kv :: post ∧ kv.1 ∉ pre.*1.
End JsMap.

(** The fields of a construct that the base class reads and writes;
    [props] is opaque to it. Documents are references into the XML
    store, builders are callbacks on it. *)
Record Construct := mkConstruct {
  scope : option ref;
  _xmlDocs : gmap string Xml.ref;
  _xmlBuilders : list (Key * Xml.Builder)
}.

Abbreviation Store := (list Construct).

Definition set_xmlDocs (d : gmap string Xml.ref) (c : Construct) : Construct :=
  mkConstruct (scope c) d (_xmlBuilders c).

Definition set_xmlBuilders (b : list (Key * Xml.Builder)) (c : Construct) : Construct :=
  mkConstruct (scope c) (_xmlDocs c) b.

(** [get _rootNode()], the recursion up [scope] bounded by [fuel]. *)
Fixpoint rootNode_from (fuel : nat) (s : Store) (this : ref) : option ref :=
  match fuel with
  | O => None
  | S fuel' =>
      c ← s !! this;
      match scope c with
      | None => Some this
      | Some parent => rootNode_from fuel' s parent
      end
  end.

(** A chain of scopes never revisits a construct, so the number of
    constructs bounds it. *)
Definition _rootNode (s : Store) (this : ref) : option ref :=
  rootNode_from (length s) s this.

(** [_xmlDocs] is a plain object [{}]: besides its own properties, which
    the [gmap] holds, a read finds the properties of [Object.prototype].
    These are their names, as ECMAScript (Annex B included) gives them. *)
Definition Object_prototype : list string :=
  ["constructor"; "__defineGetter__"; "__defineSetter__"; "hasOwnProperty";
   "__lookupGetter__"; "__lookupSetter__"; "isPrototypeOf"; "propertyIsEnumerable";
   "toString"; "valueOf"; "__proto__"; "toLocaleString"].

(** What the read [docs[path]] gives: the own property, else the
    inherited one (a function, or the prototype itself for [__proto__]),
    else [undefined]. *)
Inductive Property :=
| Own (doc : Xml.ref)
| Inherited
| Undefined.

Definition get_property (docs : gmap string Xml.ref) (path : string) : Property :=
  match docs !! path with
  | Some doc => Own doc
  | None => if bool_decide (path ∈ Object_prototype) then Inherited else Undefined
  end.

(** [_addXmlDoc(path, doc)]: the assignment happens only when
    [typeof docs[path]] is ["undefined"], so never at an inherited name,
    and then creates an own property. *)
Definition _addXmlDoc (this : ref) (path : string) (doc : Xml.ref) (s : Store) : Store :=
  match _rootNode s this with
  | Some r =>
      match (λ c, get_property (_xmlDocs c) path) <$> s !! r with
      | Some Undefined => alter (λ c, set_xmlDocs (<[path := doc]> (_xmlDocs c)) c) r s
      | _ => s
      end
  | None => s
  end.

(** [_addXmlBuilder(sym, builder)] *)
Definition _addXmlBuilder (this : ref) (sym : Key) (builder : Xml.Builder) (s : Store)
    : Store :=
  alter (λ c, if Map_has (_xmlBuilders c) sym then c
              else set_xmlBuilders (Map_set (_xmlBuilders c) sym builder) c) this s.

(** A run of [_addXmlBuilder] calls on [this], in order. *)
Definition register_all (this : ref) (regs : list (Key * Xml.Builder)) (s : Store) : Store :=
  foldl (λ s kv, _addXmlBuilder this kv.1 kv.2 s) s regs.

(** [constructor(scope, props, builder?)]: the new construct starts with
    both registries empty, then the builder runs on it. *)
Definition Construct_new (scope : option ref) (builder : option (ref → Store → Store))
    (s : Store) : Store * ref :=
  let this := length s in
  let s' := s ++ [mkConstruct scope ∅ []] in
  (match builder with Some b => b this s' | None => s' end, this).

(** Every scope was constructed before the constructs it owns. *)
Definition scopes_older (s : Store) : Prop :=
  ∀ r c p, s !! r = Some c → scope c = Some p → p < r.

(** [r] is reached from [this] by following [scope] links. *)
Inductive ancestor (s : Store) : ref → ref → Prop :=
| ancestor_self this : ancestor s this this
| ancestor_up this c p r :
    s !! this = Some c → scope c = Some p → ancestor s p r → ancestor s this r.

(** *** [Construct.push] *)

(** A value as [push] sees it: an array (by reference), or not. *)
Inductive Value :=
| VUndefined
| VArray (a : ref)
| VObject (o : ref)
| VOther (v : nat).

(** Arrays and objects; an object is given by its own properties. *)
Record Objects := mkObjects {
  arrays : list (list Value);
  objects : list (gmap string Value)
}.

(** [scope[key]] *)
Definition get (scope : ref) (key : string) (s : Objects) : Value :=
  default VUndefined (objects s !! scope ≫= λ o, o !! key).

(** [Array.isArray(v)] *)
Definition isArray (v : Value) : bool :=
  match v with
  | VArray _ => true
  | _ => false
  end.

(** [static push<T>(scope: T, key: keyof T, value: unknown)]. On an object
    that exists, the second read of [scope[key]] always finds an array. *)
Definition push (scope : ref) (key : string) (value : Value) (s : Objects) : Objects :=
  let s1 :=
    if isArray (get scope key s) then s
    else mkObjects (arrays s ++ [[]])
                   (alter (λ o, <[key := VArray (length (arrays s))]> o) scope (objects s)) in
  match get scope key s1 with
  | VArray a => mkObjects (alter (λ l, l ++ [value]) a (arrays s1)) (objects s1)
  | _ => s1
  end.

End Construct.

(** ** Programs over the two classes *)

Module Programs.
Import Xml.
Local Open Scope js_scope.

(** What [XmlDocument.prototype.toJSON] returns: the projection of the
    root, or the empty object [{}] of a document without a root. *)
Inductive DocumentJson :=
| EmptyObject
| ElementObject (j : Json).

(** [XmlDocument.prototype.toJSON] *)
Definition XmlDocument_toJSON (fuel : nat) (h : Heap) (this : ref) : option DocumentJson :=
  match get_root this h with
  | Some r => ElementObject <$> XmlElement_toJSON fuel h r
  | None => Some EmptyObject
  end.

(** The number of levels of a projection. *)
Fixpoint Json_depth (j : Json) : nat :=
  match j with
  | JsonObject _ cs _ _ => S (foldr (λ c d, Nat.max (Json_depth c) d) 0 cs)
  end.

(** The body of a builder callback that declares the given children in
    order: [x.Node(...); x.Node(...); ...], the arguments of each call
    given by [script]. *)
Section declare_all.
Variable script : Json → list Arg.
Variable x : ref.

Fixpoint declare_all (cs : list Json) : M unit :=
  match cs with
  | [] => ret tt
  | j :: cs' => XmlElement_Node x (script j) ;; declare_all cs'
  end.
End declare_all.

(** The arguments with which a user of the DSL declares the element that
    a projection describes, through the overloads of [Node] and of the
    constructor: the name, the attributes if any, the content if any, and
    a builder that declares the children the same way. *)
Fixpoint args_of (j : Json) : list Arg :=
  match j with
  | JsonObject n cs a c =>
      [ArgString n]
        ++ match a with Some o => [ArgObject o] | None => [] end
        ++ match c with Some s => [ArgString s] | None => [] end
        ++ [ArgFunction (λ x, declare_all args_of x cs)]
  end.

(** The store is left as [Node] would leave it for the elements created
    for [j], as long as they keep their shape. *)
Definition declares (n : nat) (j : Json) : Prop :=
  ∀ h, ∃ hb,
    XmlElement_new (args_of j) h = (hb, Returned (length (heap_elements h))) ∧
    length (heap_elements h) < length (heap_elements hb) ∧
    heap_documents hb = heap_documents h ∧
    (∀ q, q < length (heap_elements h) → heap_elements hb !! q = heap_elements h !! q) ∧
    parent <$> heap_elements hb !! length (heap_elements h) = Some None ∧
    (∀ h', same_shapes (length (heap_elements h)) (length (heap_elements hb)) hb h' →
           XmlElement_toJSON n h' (length (heap_elements h)) = Some j).

(** A step of a program over the construct tree: a construction
    [new K(scope, props)] with no builder, or a call of one of the two
    registration methods. *)
Inductive Step :=
| StepNew (scope : option ref)
| StepAddXmlDoc (this : ref) (path : string) (doc : ref)
| StepAddXmlBuilder (this : ref) (sym : Construct.Key) (builder : Builder).

Definition step (s : list Construct.Construct) (st : Step) : list Construct.Construct :=
  match st with
  | StepNew scope => (Construct.Construct_new scope None s).1
  | StepAddXmlDoc this path doc => Construct._addXmlDoc this path doc s
  | StepAddXmlBuilder this sym builder => Construct._addXmlBuilder this sym builder s
  end.

Definition run (steps : list Step) (s : list Construct.Construct) : list Construct.Construct :=
  foldl step s steps.

(** [r] is a root: a construct without a scope. *)
Definition is_root (s : list Construct.Construct) (r : ref) : Prop :=
  ∃ c, s !! r = Some c ∧ Construct.scope c = None.

(** A run of [Construct.push] calls on one key, in order. *)
Definition push_all (scope : ref) (key : string) (values : list Construct.Value)
    (s : Construct.Objects) : Construct.Objects :=
  foldl (λ s v, Construct.push scope key v s) s values.

(** What is registered on a construct: a document at a path, or a
    callback under a key. *)
Definition registered (s : list Construct.Construct) (r : ref) (path : string) (d : ref)
    : Prop :=
  ∃ c, s !! r = Some c ∧ Construct._xmlDocs c !! path = Some d.

Definition registered_builder (s : list Construct.Construct) (r : ref)
    (k : Construct.Key) (b : Builder) : Prop :=
  ∃ c, s !! r = Some c ∧ Construct.Map_get (Construct._xmlBuilders c) k = Some b.

End Programs.

(** ** A client of the XML classes: SharedResourceProjectExtension *)

Module SharedResourceProjectExtension.
Import Xml.
Local Open Scope js_scope.

(** [xs.join(sep)] *)
Fixpoint join (sep : string) (xs : list string) : string :=
  match xs with
  | [] => EmptyString
  | [x] => x
  | x :: xs' => x +:+ sep +:+ join sep xs'
  end.

(** The line feed that the literal in [join] denotes. *)
Definition newline : string := String (Ascii.ascii_of_nat 10) EmptyString.

Section toXml.
(** A [number] as [toXml] uses it: through its truthiness and through
    [toString()]. *)
Variable Number : Type.
Variable truthy : Number → bool.
Variable Number_toString : Number → string.

(** [SharedResourceProjectExtensionProps]; the declared type wants
    exactly one of [quota] and [values], the code reads each on its own. *)
Record Props := mkProps {
  id : string;
  name : string;
  enabled : option bool;
  quota : option Number;
  values : option (list string)
}.

(** [this.props.quota ? "quoted" : "custom"] *)
Definition type_of (p : Props) : string :=
  match quota p with
  | Some q => if truthy q then "quoted" else "custom"
  | None => "custom"
  end.

(** [toXml(): XmlElement] *)
Definition toXml (p : Props) : M ref :=
  XmlElement_new
    [ArgString "extension";
     ArgObject [("id", id p); ("type", "JetBrains.SharedResources")];
     ArgFunction (λ x,
       XmlElement_Node x
         [ArgString "param"; ArgObject [("name", "name"); ("value", name p)]] ;;
       XmlElement_Node x
         [ArgString "param";
          ArgObject [("name", "enabled");
                     ("value", if default true (enabled p) then "true" else "false")]] ;;
       XmlElement_Node x
         [ArgString "param"; ArgObject [("name", "type"); ("value", type_of p)]] ;;
       match quota p with
       | Some q =>
           XmlElement_Node x
             [ArgString "param";
              ArgObject [("name", "quota"); ("value", Number_toString q)]] ;;
           ret tt
       | None => ret tt
       end ;;
       match values p with
       | Some vs =>
           XmlElement_Node x
             [ArgString "param"; ArgObject [("name", "values")];
              ArgFunction (λ x, XmlElement_CDATA x (join newline vs) ;; ret tt)] ;;
           ret tt
       | None => ret tt
       end)].
End toXml.

Arguments mkProps {Number}.
Arguments id {Number}.
Arguments name {Number}.
Arguments enabled {Number}.
Arguments quota {Number}.
Arguments values {Number}.
Arguments type_of {Number}.
Arguments toXml {Number}.

End SharedResourceProjectExtension.

(* ================================================================== *)
(** * Part II: properties of the XML model                             *)
(* ================================================================== *)

Import Xml.
Local Open Scope js_scope.

(** ** The model at work *)

(** The example of the class comment of [XmlDocument], the [id] a string. *)
Example users_document :
  let q := String JsString.dquote EmptyString in
  let names : Builder := λ x,
    XmlElement_Node x [ArgString "first-name"; ArgString "Brad"] ;;
    XmlElement_Node x [ArgString "last-name"; ArgString "Jones"] ;;
    ret tt in
  let user : Builder := λ x,
    XmlElement_Node x [ArgString "user"; ArgObject [("id", "1")]; ArgFunction names] ;;
    ret tt in
  let builder : ref → M unit := λ doc,
    XmlDocument_Node doc [ArgString "users"; ArgFunction user] ;; ret tt in
  match XmlDocument_new builder empty_heap with
  | (h, Returned doc) => XmlDocument_toString id 4 h doc false
  | (_, Thrown _) => None
  end
  = Some ("<users><user id=" +:+ q +:+ "1" +:+ q
            +:+ "><first-name>Brad</first-name><last-name>Jones</last-name></user></users>").
Proof. vm_compute. reflexivity. Qed.

(** A document without a root renders as the empty string. *)
Example empty_document :
  XmlDocument_toString id 0 (XmlDocument_new (λ _, ret tt) empty_heap).1 0 false
  = Some EmptyString.
Proof. reflexivity. Qed.

(** The shapes [parseArgs] tells apart. *)
Example parseArgs_shapes :
  let b : Builder := λ _, ret tt in
  (∃ a, parseArgs [ArgString "n"; ArgString "c"; ArgFunction b] = inr a ∧
        na_content a = Some "c" ∧ na_attributes a = None ∧ is_Some (na_builder a)) ∧
  (∃ a, parseArgs [ArgString "n"; ArgObject [("k", "v")]; ArgString "c"; ArgFunction b] = inr a ∧
        na_content a = Some "c" ∧ na_attributes a = Some [("k", "v")] ∧
        is_Some (na_builder a)) ∧
  (∃ a, parseArgs [ArgString "n"; ArgNull; ArgUndefined; ArgFunction b] = inr a ∧
        na_content a = None ∧ na_attributes a = None ∧ is_Some (na_builder a)) ∧
  parseArgs [] = inl no_args_error ∧
  parseArgs [ArgUndefined] = inl no_name_error ∧
  parseArgs [ArgElement 0] = inl no_name_error.
Proof. intros b. split_and!; try reflexivity; eexists; split_and!; try reflexivity; by eexists. Qed.

(** ** Argument parsing *)

Lemma parseArgs_malformed args :
  malformed args = true → parseArgs args = inl (shape_error args).
Proof.
  destruct args as [|a rest]; [done|].
  by destruct a.
Qed.

Lemma parseArgs_name args a :
  parseArgs args = inr a → ∃ rest, args = ArgString (na_name a) :: rest.
Proof.
  unfold parseArgs. destruct args as [|x rest]; [done|].
  destruct x; simpl; try done.
  intros [= <-]. eauto.
Qed.

Lemma parseArgs_name_only n :
  parseArgs [ArgString n] = inr (mkNodeArgs n None None None).
Proof. reflexivity. Qed.

(** ** Creating the element of a [Node] call *)

Lemma node_of_args_element e rest h :
  node_of_args (ArgElement e :: rest) h = (h, Returned e).
Proof. reflexivity. Qed.

Lemma node_of_args_malformed args h :
  malformed args = true → node_of_args args h = (h, Thrown (shape_error args)).
Proof.
  intros Hm. unfold node_of_args.
  rewrite (parseArgs_malformed _ Hm).
  destruct args as [|a rest]; [done|]. by destruct a.
Qed.

Lemma alter_last {A} (f : A → A) (l : list A) (x : A) :
  alter f (length l) (l ++ [x]) = l ++ [f x].
Proof.
  rewrite alter_app_r_alt by done. by rewrite Nat.sub_diag.
Qed.

Lemma XmlElement_new_name n h :
  XmlElement_new [ArgString n] h
  = (mkHeap (heap_elements h ++ [mkXmlElement n None None None []]) (heap_documents h),
     Returned (length (heap_elements h))).
Proof. reflexivity. Qed.

(** With well-formed arguments, [Node] makes the element, assigns its
    fields and hands the store to the builder. *)
Lemma node_of_args_parsed args a h :
  parseArgs args = inr a →
  node_of_args args h =
    let node := length (heap_elements h) in
    match na_builder a with
    | Some builder =>
        match builder node (with_new_element a h) with
        | (h', Returned _) => (h', Returned node)
        | (h', Thrown err) => (h', Thrown err)
        end
    | None => (with_new_element a h, Returned node)
    end.
Proof.
  intros Hp. destruct (parseArgs_name _ _ Hp) as [rest ->].
  unfold node_of_args. rewrite Hp. simpl (_ !! _).
  unfold bind. rewrite XmlElement_new_name.
  unfold modify_element, with_new_element. simpl.
  rewrite !alter_last. simpl.
  destruct (na_builder a) as [b|]; [|done].
  by destruct (b _ _) as [h2 [[]|err]].
Qed.

Lemma builder_returns_grows b node h h' :
  builder_returns b node h h' → grows h h'.
Proof.
  destruct b as [f|]; simpl.
  - by intros [_ ?].
  - intros ->. by split.
Qed.

Lemma node_of_args_returns args a h hb :
  parseArgs args = inr a →
  builder_returns (na_builder a) (length (heap_elements h)) (with_new_element a h) hb →
  node_of_args args h = (hb, Returned (length (heap_elements h))).
Proof.
  intros Hp Hb. rewrite (node_of_args_parsed _ _ _ Hp). simpl.
  destruct (na_builder a) as [f|]; simpl in Hb.
  - destruct Hb as [-> _]. done.
  - by subst hb.
Qed.

Lemma new_element_allocated a h hb :
  grows (with_new_element a h) hb →
  length (heap_elements h) < length (heap_elements hb) ∧
  length (heap_documents h) ≤ length (heap_documents hb).
Proof.
  unfold grows, with_new_element. simpl. rewrite length_app. simpl. lia.
Qed.

(** ** The root of a document *)

Lemma get_root_attach_root d node h :
  d < length (heap_documents h) → get_root d (attach_root d node h) = Some node.
Proof.
  intros Hd. unfold get_root, attach_root. simpl.
  rewrite list_lookup_alter_eq.
  destruct (lookup_lt_is_Some_2 _ _ Hd) as [doc ->]. done.
Qed.

Lemma parent_attach_root d node h :
  node < length (heap_elements h) →
  parent <$> heap_elements (attach_root d node h) !! node = Some (Some (ParentDocument d)).
Proof.
  intros Hn. unfold attach_root. simpl.
  rewrite list_lookup_alter_eq.
  destruct (lookup_lt_is_Some_2 _ _ Hn) as [e ->]. done.
Qed.

Lemma XmlDocument_Node_rooted d r args h :
  get_root d h = Some r →
  XmlDocument_Node d args h = (h, Thrown duplicate_root_error).
Proof. intros Hr. unfold XmlDocument_Node. by rewrite Hr. Qed.

Lemma XmlDocument_Node_rootless d args h hb node :
  get_root d h = None →
  node_of_args args h = (hb, Returned node) →
  XmlDocument_Node d args h = (attach_root d node hb, Returned node).
Proof.
  intros Hr Hn. unfold XmlDocument_Node. rewrite Hr.
  unfold bind. rewrite Hn. reflexivity.
Qed.

(** C8. A [Node] call (on an element or on a document) or a constructor
    call with no arguments, or with a first argument that is neither a
    string nor an element, throws: [parseArgs] rejects the arguments, with
    "No args to parse" for an empty list and "an element name must be
    provided" otherwise, and the store is left exactly as it was, so
    nothing has been created or attached. On a document that already has
    a root the call is rejected as well, by the duplicate-root check. *)
Theorem Node_rejects_malformed_arguments (args : list Arg) (h : Heap) (this d : ref) :
  malformed args = true →
  parseArgs args = inl (shape_error args) ∧
  XmlElement_Node this args h = (h, Thrown (shape_error args)) ∧
  XmlElement_new args h = (h, Thrown (shape_error args)) ∧
  (get_root d h = None →
   XmlDocument_Node d args h = (h, Thrown (shape_error args))) ∧
  (∃ err, XmlDocument_Node d args h = (h, Thrown err)).
Proof.
  intros Hm.
  pose proof (parseArgs_malformed _ Hm) as Hp.
  pose proof (node_of_args_malformed _ h Hm) as Hn.
  assert (get_root d h = None →
          XmlDocument_Node d args h = (h, Thrown (shape_error args))) as Hd.
  { intros Hr. unfold XmlDocument_Node, bind. by rewrite Hr, Hn. }
  split_and!; [done| | |done|].
  - unfold XmlElement_Node, bind. by rewrite Hn.
  - unfold XmlElement_new. by rewrite Hp.
  - destruct (get_root d h) as [r|] eqn:Hr.
    + exists duplicate_root_error. by apply (XmlDocument_Node_rooted _ r).
    + eauto.
Qed.

(** The call [doc.Node()] on a one-document store, and the call
    [doc.Node(42)]. *)
Lemma Node_rejects_malformed_arguments_witness :
  let h := mkHeap [mkXmlElement "a" None None None []] [mkXmlDocument None] in
  XmlElement_Node 0 [] h = (h, Thrown no_args_error) ∧
  XmlDocument_Node 0 [ArgOther; ArgString "a"] h = (h, Thrown no_name_error).
Proof.
  intros h. split.
  - exact (proj1 (proj2 (Node_rejects_malformed_arguments [] h 0 0 eq_refl))).
  - exact (proj1 (proj2 (proj2 (proj2
             (Node_rejects_malformed_arguments [ArgOther; ArgString "a"] h 0 0 eq_refl))))
           eq_refl).
Defined.




(** ** Attaching a child *)

Lemma attach_child_parent this node h :
  node < length (heap_elements h) →
  parent <$> heap_elements (attach_child this node h) !! node
  = Some (Some (ParentElement this)).
Proof.
  intros Hn. unfold attach_child. simpl.
  destruct (lookup_lt_is_Some_2 _ _ Hn) as [e He].
  rewrite list_lookup_alter. case_decide as Heq.
  - subst. rewrite list_lookup_alter_eq, He. done.
  - rewrite list_lookup_alter_eq, He. done.
Qed.

Lemma attach_child_children this node h :
  children <$> heap_elements (attach_child this node h) !! this
  = (λ e, children e ++ [node]) <$> heap_elements h !! this.
Proof.
  unfold attach_child. simpl.
  rewrite list_lookup_alter_eq, list_lookup_alter.
  case_decide as Heq; [rewrite Heq|]; by destruct (heap_elements h !! this).
Qed.

Lemma attach_child_other this node h r :
  r ≠ this → r ≠ node →
  heap_elements (attach_child this node h) !! r = heap_elements h !! r.
Proof.
  intros H1 H2. unfold attach_child. simpl.
  by rewrite !list_lookup_alter_ne.
Qed.

Lemma attach_child_shape this node h :
  node ≠ this →
  shape <$> heap_elements (attach_child this node h) !! node
  = shape <$> heap_elements h !! node.
Proof.
  intros Hne. unfold attach_child. simpl.
  rewrite list_lookup_alter_ne, list_lookup_alter_eq by done.
  by destruct (heap_elements h !! node).
Qed.

Lemma XmlElement_Node_attach this args h hb node :
  node_of_args args h = (hb, Returned node) →
  XmlElement_Node this args h = (attach_child this node hb, Returned node).
Proof. intros Hn. unfold XmlElement_Node, bind. by rewrite Hn. Qed.

Lemma XmlElement_Node_throw this args h hb err :
  node_of_args args h = (hb, Thrown err) →
  XmlElement_Node this args h = (hb, Thrown err).
Proof. intros Hn. unfold XmlElement_Node, bind. by rewrite Hn. Qed.

(** C7. [XmlElement.Node] returns the element it attached. Given an
    element, it returns that very element, untouched but for its parent,
    which is now the receiver, and the receiver's children are the former
    ones followed by it. Given well-formed arguments, it creates the
    element, runs the builder (if any) on it, and only then sets its
    parent and appends it: the store it leaves is the store the builder
    left, with the new element attached after whatever children the
    receiver had by then. An error thrown by the builder is passed on. In
    all cases nothing else in the store changes. *)
Theorem XmlElement_Node_attaches_last (h : Heap) (this : ref) :
  this < length (heap_elements h) →
  (∀ e rest, e < length (heap_elements h) →
     let h' := attach_child this e h in
     XmlElement_Node this (ArgElement e :: rest) h = (h', Returned e) ∧
     parent <$> heap_elements h' !! e = Some (Some (ParentElement this)) ∧
     children <$> heap_elements h' !! this
       = (λ x, children x ++ [e]) <$> heap_elements h !! this ∧
     (e ≠ this → shape <$> heap_elements h' !! e = shape <$> heap_elements h !! e) ∧
     (∀ r, r ≠ this → r ≠ e → heap_elements h' !! r = heap_elements h !! r) ∧
     heap_documents h' = heap_documents h) ∧
  (∀ args a hb, parseArgs args = inr a →
     let node := length (heap_elements h) in
     builder_returns (na_builder a) node (with_new_element a h) hb →
     let h' := attach_child this node hb in
     heap_elements (with_new_element a h) !! node
       = Some (mkXmlElement (na_name a) (na_attributes a) (na_content a) None []) ∧
     XmlElement_Node this args h = (h', Returned node) ∧
     parent <$> heap_elements h' !! node = Some (Some (ParentElement this)) ∧
     children <$> heap_elements h' !! this
       = (λ x, children x ++ [node]) <$> heap_elements hb !! this ∧
     shape <$> heap_elements h' !! node = shape <$> heap_elements hb !! node ∧
     (∀ r, r ≠ this → r ≠ node → heap_elements h' !! r = heap_elements hb !! r) ∧
     heap_documents h' = heap_documents hb) ∧
  (∀ args a f hb err, parseArgs args = inr a → na_builder a = Some f →
     f (length (heap_elements h)) (with_new_element a h) = (hb, Thrown err) →
     XmlElement_Node this args h = (hb, Thrown err)).
Proof.
  intros Hthis. split_and!.
  - intros e rest He h'. split_and!.
    + by apply XmlElement_Node_attach.
    + by apply attach_child_parent.
    + apply attach_child_children.
    + apply attach_child_shape.
    + intros r ??. by apply attach_child_other.
    + done.
  - intros args a hb Hp node Hb h'.
    destruct (new_element_allocated a h hb (builder_returns_grows _ _ _ _ Hb)) as [Hn _].
    split_and!.
    + unfold with_new_element, node. simpl.
      by rewrite lookup_app_r, Nat.sub_diag.
    + apply XmlElement_Node_attach. by apply (node_of_args_returns _ a).
    + by apply attach_child_parent.
    + apply attach_child_children.
    + apply attach_child_shape. unfold node. lia.
    + intros r ??. by apply attach_child_other.
    + done.
  - intros args a f hb err Hp Hf Hthrow.
    apply XmlElement_Node_throw.
    rewrite (node_of_args_parsed _ _ _ Hp). simpl. by rewrite Hf, Hthrow.
Qed.

(** [users.Node(user)] with a ready-made element, and
    [users.Node("user", {id: "1"}, x => x.Node("first-name", "Brad"))]. *)
Lemma XmlElement_Node_attaches_last_witness :
  let h := mkHeap [mkXmlElement "users" None None None [];
                   mkXmlElement "user" None None None []] [] in
  let b : Builder :=
    λ x, XmlElement_Node x [ArgString "first-name"; ArgString "Brad"] ;; ret tt in
  let args := [ArgString "user"; ArgObject [("id", "1")]; ArgFunction b] in
  XmlElement_Node 0 [ArgElement 1] h
    = (mkHeap [mkXmlElement "users" None None None [1];
               mkXmlElement "user" None None (Some (ParentElement 0)) []] [],
       Returned 1) ∧
  XmlElement_Node 0 args h
    = (mkHeap [mkXmlElement "users" None None None [2];
               mkXmlElement "user" None None None [];
               mkXmlElement "user" (Some [("id", "1")]) None (Some (ParentElement 0)) [3];
               mkXmlElement "first-name" None (Some "Brad") (Some (ParentElement 2)) []] [],
       Returned 2).
Proof.
  intros h b args.
  set (a := mkNodeArgs "user" None (Some [("id", "1")]) (Some b)).
  set (hb := mkHeap [mkXmlElement "users" None None None [];
                     mkXmlElement "user" None None None [];
                     mkXmlElement "user" (Some [("id", "1")]) None None [3];
                     mkXmlElement "first-name" None (Some "Brad") (Some (ParentElement 2)) []]
                    []).
  assert (builder_returns (na_builder a) 2 (with_new_element a h) hb) as Hb.
  { split; [reflexivity|]. split; simpl; lia. }
  pose proof (XmlElement_Node_attaches_last h 0 (le_S _ _ (le_n 1))) as (Hpre & Hnew & _).
  split.
  - exact (proj1 (Hpre 1 [] (le_n 2))).
  - exact (proj1 (proj2 (Hnew args a hb eq_refl Hb))).
Defined.

(** ** Strings *)

Lemma append_nil_l s : EmptyString +:+ s = s.
Proof. reflexivity. Qed.

Lemma append_cons c s t : String c s +:+ t = String c (s +:+ t).
Proof. reflexivity. Qed.

Lemma append_nil_r s : s +:+ EmptyString = s.
Proof. induction s as [|c s IH]; [done|]. by rewrite append_cons, IH. Qed.

Lemma append_assoc s t u : (s +:+ t) +:+ u = s +:+ t +:+ u.
Proof. induction s as [|c s IH]; [done|]. by rewrite !append_cons, IH. Qed.

Lemma join_nil : JsString.join [] = EmptyString.
Proof. reflexivity. Qed.

Lemma join_cons x xs : JsString.join (x :: xs) = x +:+ JsString.join xs.
Proof. reflexivity. Qed.

Lemma join_app xs ys :
  JsString.join (xs ++ ys) = JsString.join xs +:+ JsString.join ys.
Proof.
  induction xs as [|x xs IH]; [done|].
  by rewrite <- app_comm_cons, !join_cons, IH, append_assoc.
Qed.

Lemma join_singleton x : JsString.join [x] = x.
Proof. by rewrite join_cons, join_nil, append_nil_r. Qed.

Lemma occurs_app c s t :
  JsString.occurs c (s +:+ t) = JsString.occurs c s || JsString.occurs c t.
Proof.
  induction s as [|x s IH]; [done|].
  rewrite append_cons. simpl. by rewrite IH, orb_assoc.
Qed.

(** *** Escaping *)

Lemma escape_cons_dquote s :
  escape (String JsString.dquote s) = "&quot;" +:+ escape s.
Proof. unfold escape. cbn [JsString.replaceAll]. by rewrite decide_True. Qed.

Lemma escape_cons_other x s :
  x ≠ JsString.dquote → escape (String x s) = String x (escape s).
Proof. intros. unfold escape. cbn [JsString.replaceAll]. by rewrite decide_False. Qed.

Lemma escape_app s t : escape (s +:+ t) = escape s +:+ escape t.
Proof.
  induction s as [|x s IH]; [done|].
  rewrite append_cons.
  destruct (decide (x = JsString.dquote)) as [->|Hx].
  - by rewrite !escape_cons_dquote, IH, append_assoc.
  - by rewrite !escape_cons_other, IH, append_cons.
Qed.

Lemma escape_no_dquote v : JsString.occurs JsString.dquote (escape v) = false.
Proof.
  induction v as [|x v IH]; [done|].
  destruct (decide (x = JsString.dquote)) as [->|Hx].
  - rewrite escape_cons_dquote, occurs_app, IH. reflexivity.
  - rewrite escape_cons_other by done. simpl.
    by rewrite IH, bool_decide_eq_false_2.
Qed.

Lemma escape_id v : JsString.occurs JsString.dquote v = false → escape v = v.
Proof.
  induction v as [|x v IH]; [done|]. simpl.
  intros [Hx Hv]%orb_false_elim.
  apply bool_decide_eq_false in Hx.
  by rewrite escape_cons_other, IH.
Qed.

(** ** Rendering *)

Section rendering.
Variable xmlFmt : string → string.

Abbreviation toString := (XmlElement_toString xmlFmt).

Lemma toString_comment fuel h this e :
  heap_elements h !! this = Some e →
  name e = comment_name →
  toString (S fuel) h this false
  = Some ("<!-- " +:+ JsString.interpolate (content e) +:+ " -->").
Proof.
  intros He Hn. cbn [XmlElement_toString]. rewrite He. cbn [mbind option_bind].
  rewrite decide_True by done. cbn [mbind option_bind].
  by rewrite join_singleton.
Qed.

Lemma toString_cdata fuel h this e :
  heap_elements h !! this = Some e →
  name e = cdata_name →
  toString (S fuel) h this false
  = Some ("<![CDATA[" +:+ JsString.interpolate (content e) +:+ "]]>").
Proof.
  intros He Hn. cbn [XmlElement_toString]. rewrite He. cbn [mbind option_bind].
  rewrite decide_False, decide_True by (by rewrite ?Hn). cbn [mbind option_bind].
  by rewrite join_singleton.
Qed.

Lemma toString_self_closing fuel h this e :
  heap_elements h !! this = Some e →
  name e ≠ comment_name → name e ≠ cdata_name →
  children e = [] → content e = None →
  toString (S fuel) h this false = Some (open_tag e +:+ " />").
Proof.
  intros He Hn1 Hn2 Hc Ht. cbn [XmlElement_toString]. rewrite He. cbn [mbind option_bind].
  rewrite !decide_False by done. rewrite Hc, Ht.
  rewrite !bool_decide_eq_true_2 by done. cbn [andb mbind option_bind].
  f_equal. unfold open_tag.
  by rewrite !join_app, !join_singleton, !append_assoc.
Qed.

Lemma toString_open_close fuel h this e rendered :
  heap_elements h !! this = Some e →
  name e ≠ comment_name → name e ≠ cdata_name →
  children e ≠ [] ∨ content e ≠ None →
  Forall2 (λ child s, toString fuel h child false = Some s) (children e) rendered →
  toString (S fuel) h this false
  = Some (open_tag e +:+ ">" +:+ JsString.join rendered
            +:+ default EmptyString (content e) +:+ "</" +:+ name e +:+ ">").
Proof.
  intros He Hn1 Hn2 Hne Hr. cbn [XmlElement_toString]. rewrite He. cbn [mbind option_bind].
  rewrite !decide_False by done.
  apply mapM_Some_2 in Hr.
  assert (bool_decide (length (children e) = 0) && bool_decide (content e = None) = false)
    as ->.
  { destruct Hne as [Hc|Hc].
    - rewrite bool_decide_eq_false_2; [done|]. by destruct (children e).
    - rewrite (bool_decide_eq_false_2 (content e = None)) by done. apply andb_false_r. }
  rewrite Hr. cbn [mbind option_bind]. f_equal. unfold open_tag.
  rewrite !join_app, !join_singleton, !append_assoc.
  destruct (content e); cbn [default]; by rewrite ?join_singleton, ?join_nil.
Qed.

End rendering.

(** C3. An element whose name is neither marker, with no children and
    undefined content, renders as the opening tag (attributes included)
    closed by [ />]. Any other such element renders as the opening tag,
    [>], the renderings of its children in the order of [children], then
    its content as it is (nothing if undefined), then the closing tag. *)
Theorem toString_tag_forms (xmlFmt : string → string) (fuel : nat) (h : Heap)
    (this : ref) (e : XmlElement) :
  heap_elements h !! this = Some e →
  name e ≠ comment_name → name e ≠ cdata_name →
  (children e = [] → content e = None →
     XmlElement_toString xmlFmt (S fuel) h this false = Some (open_tag e +:+ " />")) ∧
  (children e ≠ [] ∨ content e ≠ None →
     ∀ rendered,
       Forall2 (λ child s, XmlElement_toString xmlFmt fuel h child false = Some s)
               (children e) rendered →
       XmlElement_toString xmlFmt (S fuel) h this false
       = Some (open_tag e +:+ ">" +:+ JsString.join rendered
                 +:+ default EmptyString (content e) +:+ "</" +:+ name e +:+ ">")).
Proof.
  intros He Hn1 Hn2. split.
  - intros Hc Ht. exact (toString_self_closing xmlFmt fuel h this e He Hn1 Hn2 Hc Ht).
  - intros Hne rendered Hr.
    exact (toString_open_close xmlFmt fuel h this e rendered He Hn1 Hn2 Hne Hr).
Qed.

(** An element [a] with one attribute, an empty child [b] with one
    attribute, and text. *)
Lemma toString_tag_forms_witness :
  let b := mkXmlElement "b" (Some [("id", "1")]) None (Some (ParentElement 0)) [] in
  let a := mkXmlElement "a" (Some [("k", "v")]) (Some "text") None [1] in
  let h := mkHeap [a; b] [] in
  XmlElement_toString id 1 h 1 false = Some (open_tag b +:+ " />") ∧
  XmlElement_toString id 2 h 0 false
    = Some (open_tag a +:+ ">" +:+ (open_tag b +:+ " />") +:+ "text</a>").
Proof.
  intros b a h.
  assert (name b ≠ comment_name ∧ name b ≠ cdata_name ∧
          name a ≠ comment_name ∧ name a ≠ cdata_name) as (Hb1 & Hb2 & Ha1 & Ha2).
  { split_and!; discriminate. }
  pose proof (proj1 (toString_tag_forms id 0 h 1 b eq_refl Hb1 Hb2) eq_refl eq_refl) as Hb.
  split.
  - exact Hb.
  - assert (children a ≠ [] ∨ content a ≠ None) as Hne by (left; discriminate).
    assert (Forall2 (λ child s, XmlElement_toString id 1 h child false = Some s)
                    (children a) [open_tag b +:+ " />"]) as Hr.
    { constructor; [exact Hb | constructor]. }
    rewrite (proj2 (toString_tag_forms id 1 h 0 a eq_refl Ha1 Ha2) Hne _ Hr).
    rewrite join_singleton. reflexivity.
Defined.

(** C6. An attribute is rendered as a space, its key, [=], and its value
    between double quotes, the value with every double quote replaced by
    [&quot;]: no double quote is left in it, each one has become [&quot;]
    with the text around it escaped the same way, and a value without
    double quotes (whatever else it contains: [<], [&], ['], ...) is
    emitted as it is. Content is emitted as it is, whatever it contains. *)
Theorem toString_escapes_double_quote_only (xmlFmt : string → string) :
  (∀ fuel h this e entries,
     heap_elements h !! this = Some e →
     name e ≠ comment_name → name e ≠ cdata_name →
     attributes e = Some entries → children e = [] → content e = None →
     XmlElement_toString xmlFmt (S fuel) h this false
     = Some ("<" +:+ name e
               +:+ JsString.join
                     ((λ kv, " " +:+ kv.1 +:+ "=" +:+ String JsString.dquote
                               (escape kv.2 +:+ String JsString.dquote EmptyString))
                        <$> entries)
               +:+ " />")) ∧
  (∀ v, JsString.occurs JsString.dquote (escape v) = false) ∧
  (∀ v w, escape (v +:+ String JsString.dquote w) = escape v +:+ "&quot;" +:+ escape w) ∧
  (∀ v, JsString.occurs JsString.dquote v = false → escape v = v) ∧
  (∀ fuel h this e c,
     heap_elements h !! this = Some e →
     name e ≠ comment_name → name e ≠ cdata_name →
     children e = [] → content e = Some c →
     XmlElement_toString xmlFmt (S fuel) h this false
     = Some (open_tag e +:+ ">" +:+ c +:+ "</" +:+ name e +:+ ">")).
Proof.
  split_and!.
  - intros fuel h this e entries He Hn1 Hn2 Ha Hc Ht.
    rewrite (toString_self_closing _ _ _ _ _ He Hn1 Hn2 Hc Ht).
    unfold open_tag. rewrite Ha, !append_assoc. reflexivity.
  - apply escape_no_dquote.
  - intros v w. by rewrite escape_app, escape_cons_dquote.
  - apply escape_id.
  - intros fuel h this e c He Hn1 Hn2 Hc Ht.
    rewrite (toString_open_close _ _ _ _ _ [] He Hn1 Hn2).
    + by rewrite Ht, join_nil.
    + right. by rewrite Ht.
    + rewrite Hc. constructor.
Qed.

(** An attribute value with a double quote among [<], [&] and ['], and
    content with all of them. *)
Lemma toString_escapes_double_quote_only_witness :
  let q := String JsString.dquote EmptyString in
  let v := "a" +:+ q +:+ "<&'b" in
  let c := "1 < 2 & " +:+ q +:+ "x" +:+ q in
  let e := mkXmlElement "e" (Some [("k", v)]) None None [] in
  let t := mkXmlElement "t" None (Some c) None [] in
  let h := mkHeap [e; t] [] in
  XmlElement_toString id 1 h 0 false
    = Some ("<e k=" +:+ q +:+ "a&quot;<&'b" +:+ q +:+ " />") ∧
  escape "<&'" = "<&'" ∧
  XmlElement_toString id 1 h 1 false = Some ("<t>" +:+ c +:+ "</t>").
Proof.
  intros q v c e t h.
  pose proof (toString_escapes_double_quote_only id) as (Hattr & _ & _ & Hid & Hraw).
  assert (name e ≠ comment_name ∧ name e ≠ cdata_name ∧
          name t ≠ comment_name ∧ name t ≠ cdata_name) as (He1 & He2 & Ht1 & Ht2).
  { split_and!; discriminate. }
  split_and!.
  - rewrite (Hattr 0 h 0 e _ eq_refl He1 He2 eq_refl eq_refl eq_refl).
    vm_compute. reflexivity.
  - exact (Hid "<&'" eq_refl).
  - rewrite (Hraw 0 h 1 t c eq_refl Ht1 Ht2 eq_refl eq_refl).
    vm_compute. reflexivity.
Defined.

(** ** Comment and CDATA nodes *)

Lemma XmlElement_Node_name_content this n value h :
  this < length (heap_elements h) →
  let node := length (heap_elements h) in
  let a := mkNodeArgs n (Some value) None None in
  let h' := attach_child this node (with_new_element a h) in
  XmlElement_Node this [ArgString n; ArgString value] h = (h', Returned node) ∧
  heap_elements h' !! node
  = Some (mkXmlElement n None (Some value) (Some (ParentElement this)) []).
Proof.
  intros Hthis node a h'. split.
  - apply XmlElement_Node_attach.
    by apply (node_of_args_returns _ a).
  - unfold h', attach_child, with_new_element. simpl.
    rewrite list_lookup_alter_ne by (unfold node; lia).
    rewrite list_lookup_alter_eq.
    unfold node. by rewrite lookup_app_r, Nat.sub_diag.
Qed.

(** C9, as the code has it. Whatever attributes and children an element
    named by the comment marker carries, [toString] renders it as
    [<!-- content -->] and nothing else, and one named by the CDATA marker
    as [<![CDATA[content]]>]; an undefined content is interpolated as the
    text [undefined]. [Comment(value)] and [CDATA(value)] append to the
    receiver a new element of that name with [value] as content, no
    attributes and no children. *)
Theorem marker_nodes_render_content_only (xmlFmt : string → string) (fuel : nat)
    (h : Heap) (this : ref) :
  (∀ e, heap_elements h !! this = Some e →
     (name e = comment_name →
      XmlElement_toString xmlFmt (S fuel) h this false
      = Some ("<!-- " +:+ JsString.interpolate (content e) +:+ " -->")) ∧
     (name e = cdata_name →
      XmlElement_toString xmlFmt (S fuel) h this false
      = Some ("<![CDATA[" +:+ JsString.interpolate (content e) +:+ "]]>"))) ∧
  (this < length (heap_elements h) →
   ∀ value,
     let node := length (heap_elements h) in
     ∃ h1 h2,
       XmlElement_Comment this value h = (h1, Returned node) ∧
       heap_elements h1 !! node
         = Some (mkXmlElement comment_name None (Some value) (Some (ParentElement this)) []) ∧
       XmlElement_toString xmlFmt (S fuel) h1 node false
         = Some ("<!-- " +:+ value +:+ " -->") ∧
       XmlElement_CDATA this value h = (h2, Returned node) ∧
       heap_elements h2 !! node
         = Some (mkXmlElement cdata_name None (Some value) (Some (ParentElement this)) []) ∧
       XmlElement_toString xmlFmt (S fuel) h2 node false
         = Some ("<![CDATA[" +:+ value +:+ "]]>")).
Proof.
  split.
  - intros e He. split; intros Hn.
    + exact (toString_comment xmlFmt fuel h this e He Hn).
    + exact (toString_cdata xmlFmt fuel h this e He Hn).
  - intros Hthis value node.
    destruct (XmlElement_Node_name_content this comment_name value h Hthis) as [Hc1 Hc2].
    destruct (XmlElement_Node_name_content this cdata_name value h Hthis) as [Hd1 Hd2].
    eexists _, _. split_and!.
    + exact Hc1.
    + exact Hc2.
    + exact (toString_comment xmlFmt fuel _ _ _ Hc2 eq_refl).
    + exact Hd1.
    + exact Hd2.
    + exact (toString_cdata xmlFmt fuel _ _ _ Hd2 eq_refl).
Qed.

(** [x.Comment("note")] and [x.CDATA("a < b")] on a one-element store. *)
Lemma marker_nodes_render_content_only_witness :
  let h := mkHeap [mkXmlElement "x" None None None []] [] in
  ∃ h1 h2,
    XmlElement_Comment 0 "note" h = (h1, Returned 1) ∧
    XmlElement_toString id 1 h1 1 false = Some "<!-- note -->" ∧
    XmlElement_CDATA 0 "a < b" h = (h2, Returned 1) ∧
    XmlElement_toString id 1 h2 1 false = Some "<![CDATA[a < b]]>".
Proof.
  intros h.
  destruct (proj2 (marker_nodes_render_content_only id 0 h 0) (le_n 1) "note")
    as (h1 & _ & Hc & _ & Hr & _).
  destruct (proj2 (marker_nodes_render_content_only id 0 h 0) (le_n 1) "a < b")
    as (_ & h2 & _ & _ & _ & Hd & _ & Hs).
  exists h1, h2. split_and!.
  - exact Hc.
  - exact Hr.
  - exact Hd.
  - exact Hs.
Defined.

(** C9 as stated fails: the call
    [x.Node("--", {k: "v"}, "c", y => y.Node("z"))] makes an element named
    by the comment marker that carries an attribute and a child; both show
    in [toJSON], and [toString] leaves them out. *)
Lemma marker_node_can_carry_attributes_and_children :
  let h := mkHeap [mkXmlElement "x" None None None []] [] in
  let b : Builder := λ y, XmlElement_Node y [ArgString "z"] ;; ret tt in
  let h' := (XmlElement_Node 0 [ArgString comment_name; ArgObject [("k", "v")];
                                ArgString "c"; ArgFunction b] h).1 in
  heap_elements h' !! 1
    = Some (mkXmlElement comment_name (Some [("k", "v")]) (Some "c")
              (Some (ParentElement 0)) [2]) ∧
  XmlElement_toJSON 2 h' 1
    = Some (JsonObject comment_name [JsonObject "z" [] None None]
              (Some [("k", "v")]) (Some "c")) ∧
  XmlElement_toString id 2 h' 1 false = Some "<!-- c -->".
Proof.
  intros h b h'. split_and!; reflexivity.
Qed.

(** ** [toJSON] keeps what [toString] reads *)

Lemma attach_child_same_shape this node h q :
  q ≠ this →
  shape <$> heap_elements (attach_child this node h) !! q
  = shape <$> heap_elements h !! q.
Proof.
  intros Hq. destruct (decide (q = node)) as [->|Hne].
  - by apply attach_child_shape.
  - by rewrite attach_child_other.
Qed.

Lemma attach_child_length this node h :
  length (heap_elements (attach_child this node h)) = length (heap_elements h).
Proof. unfold attach_child. simpl. by rewrite !length_alter. Qed.

Lemma XmlElement_toJSON_unfold fuel h this :
  XmlElement_toJSON (S fuel) h this
  = (e ← heap_elements h !! this;
     cs ← mapM (XmlElement_toJSON fuel h) (children e);
     Some (JsonObject (name e) cs (attributes e) (content e))).
Proof. reflexivity. Qed.

Lemma fromJSON_unfold n cs a c :
  fromJSON (JsonObject n cs a c)
  = (this <- XmlElement_new [ArgString n] ;;
     modify_element this (set_attributes a) ;;
     modify_element this (set_content c) ;;
     attach_all fromJSON this cs ;;
     ret this).
Proof. reflexivity. Qed.

Lemma fromJSON_run n cs a c h0 :
  fromJSON (JsonObject n cs a c) h0
  = match attach_all fromJSON (length (heap_elements h0)) cs
            (mkHeap (heap_elements h0 ++ [mkXmlElement n a c None []])
                    (heap_documents h0)) with
    | (hf, Returned _) => (hf, Returned (length (heap_elements h0)))
    | (hf, Thrown err) => (hf, Thrown err)
    end.
Proof.
  rewrite fromJSON_unfold. unfold bind. rewrite XmlElement_new_name.
  unfold modify_element. cbn [heap_elements heap_documents].
  rewrite !alter_last. cbn [set_attributes set_content name attributes content parent children].
  by destruct (attach_all _ _ _ _) as [hf [[]|err]].
Qed.

Lemma is_tree_toJSON depth h r :
  is_tree depth h r = true → is_Some (XmlElement_toJSON depth h r).
Proof.
  revert r. induction depth as [|depth IH]; intros r; [done|].
  cbn [is_tree]. rewrite XmlElement_toJSON_unfold.
  destruct (heap_elements h !! r) as [e|]; [|done]. cbn [mbind option_bind].
  intros Hall.
  assert (is_Some (mapM (XmlElement_toJSON depth h) (children e))) as [cs ->]; [|by eexists].
  apply mapM_is_Some_2, Forall_forall. intros c Hc.
  apply IH. rewrite forallb_forall in Hall. by apply Hall, list_elem_of_In.
Qed.

Section roundtrip.
Variable xmlFmt : string → string.

Abbreviation toString := (XmlElement_toString xmlFmt).

(** A result does not depend on the bound that was large enough to
    reach it. *)
Lemma toString_more_fuel n m h r s :
  n ≤ m → toString n h r false = Some s → toString m h r false = Some s.
Proof.
  revert m r s. induction n as [|n IH]; intros m r s Hle; [done|].
  destruct m as [|m]; [lia|].
  cbn [XmlElement_toString].
  destruct (heap_elements h !! r) as [e|] eqn:He; [|done]. cbn [mbind option_bind].
  destruct (decide (name e = comment_name)); [done|].
  destruct (decide (name e = cdata_name)); [done|].
  destruct (_ && _); [done|].
  destruct (mapM _ (children e)) as [ss|] eqn:Hss; [|done].
  apply mapM_Some_1 in Hss.
  assert (mapM (λ c, toString m h c false) (children e) = Some ss) as ->; [|done].
  apply mapM_Some_2. eapply Forall2_impl; [exact Hss|]. cbv beta.
  intros c s' Hc. apply (IH m); [lia|done].
Qed.

(** Allocating more elements does not change what an element renders
    to. *)
Lemma toString_extend n h h' r s :
  (∀ q e, heap_elements h !! q = Some e → heap_elements h' !! q = Some e) →
  toString n h r false = Some s → toString n h' r false = Some s.
Proof.
  intros Hext. revert r s. induction n as [|n IH]; intros r s; [done|].
  cbn [XmlElement_toString].
  destruct (heap_elements h !! r) as [e|] eqn:He; [|done].
  rewrite (Hext _ _ He). cbn [mbind option_bind].
  destruct (decide (name e = comment_name)); [done|].
  destruct (decide (name e = cdata_name)); [done|].
  destruct (_ && _); [done|].
  destruct (mapM _ (children e)) as [ss|] eqn:Hss; [|done].
  apply mapM_Some_1 in Hss.
  assert (mapM (λ c, toString n h' c false) (children e) = Some ss) as ->; [|done].
  apply mapM_Some_2. eapply Forall2_impl; [exact Hss|]. cbv beta. auto.
Qed.

(** Pretty printing is applied once, to the finished text. *)
Lemma toString_fmt fuel h this fmt :
  toString fuel h this fmt
  = (λ s, if fmt then xmlFmt s else s) <$> toString fuel h this false.
Proof.
  destruct fuel as [|fuel]; [done|]. cbn [XmlElement_toString].
  destruct (heap_elements h !! this) as [e|]; [|done]. cbn [mbind option_bind].
  match goal with |- mbind _ ?X = _ => by destruct X end.
Qed.

Lemma toString_same_shape n h h' r r' e e' :
  heap_elements h !! r = Some e →
  heap_elements h' !! r' = Some e' →
  name e' = name e → attributes e' = attributes e → content e' = content e →
  length (children e') = length (children e) →
  mapM (λ c, toString n h' c false) (children e')
  = mapM (λ c, toString n h c false) (children e) →
  toString (S n) h' r' false = toString (S n) h r false.
Proof.
  intros He He' Hn Ha Hc Hl Hm. cbn [XmlElement_toString].
  rewrite He, He'. cbn [mbind option_bind].
  by rewrite Hn, Ha, Hc, Hl, Hm.
Qed.

Lemma toString_is_Some_step n h r e :
  heap_elements h !! r = Some e →
  is_Some (mapM (λ c, toString n h c false) (children e)) →
  is_Some (toString (S n) h r false).
Proof.
  intros He [ss Hss]. cbn [XmlElement_toString].
  rewrite He. cbn [mbind option_bind]. rewrite Hss. cbn [mbind option_bind].
  repeat case_decide; try done.
  by destruct (_ && _).
Qed.

Lemma attach_all_rebuilt n cs ss :
  Forall2 (rebuilds xmlFmt n) cs ss →
  ∀ hi this, this < length (heap_elements hi) →
  ∃ hf new,
    attach_all fromJSON this cs hi = (hf, Returned tt) ∧
    length (heap_elements hi) ≤ length (heap_elements hf) ∧
    heap_documents hf = heap_documents hi ∧
    (∀ q, q < length (heap_elements hi) → q ≠ this →
          heap_elements hf !! q = heap_elements hi !! q) ∧
    heap_elements hf !! this = push_children new <$> heap_elements hi !! this ∧
    Forall2 (λ r s, ∀ h', same_shapes (length (heap_elements hi))
                                      (length (heap_elements hf)) hf h' →
                          toString n h' r false = Some s) new ss.
Proof.
  induction 1 as [|j s cs ss Hj _ IH]; intros hi this Hthis.
  - exists hi, []. split_and!; try done.
    destruct (heap_elements hi !! this) as [e|]; [|done]. simpl.
    unfold push_children. rewrite app_nil_r. by destruct e.
  - destruct (Hj hi) as (h1 & Hrun & Hlt & Hdocs & Hold & Hloc).
    remember (length (heap_elements hi)) as r1 eqn:Hr1.
    set (h1' := attach_child this r1 h1).
    assert (length (heap_elements h1') = length (heap_elements h1)) as Hlen'
      by apply attach_child_length.
    destruct (IH h1' this ltac:(lia)) as (hf & new & Hrest & Hle & Hdocs' & Hold' & Hthis' & Hkids).
    exists hf, (r1 :: new). split_and!.
    + cbn [attach_all]. unfold bind at 1. rewrite Hrun.
      unfold bind at 1.
      rewrite (XmlElement_Node_attach this [ArgElement r1] h1 h1 r1 eq_refl).
      exact Hrest.
    + lia.
    + by rewrite Hdocs'.
    + intros q Hq Hne. rewrite Hold' by lia.
      unfold h1'. rewrite attach_child_other by lia. by apply Hold.
    + rewrite Hthis'. unfold h1', attach_child. simpl.
      rewrite list_lookup_alter_eq, list_lookup_alter_ne by lia.
      rewrite Hold by done.
      destruct (heap_elements hi !! this) as [e|]; [|done]. simpl.
      unfold push_children, push_child. simpl. by rewrite <- app_assoc.
    + constructor.
      * intros h' Hsame. apply Hloc. intros q Hq.
        rewrite (Hsame q ltac:(lia)).
        rewrite Hold' by lia.
        apply attach_child_same_shape. lia.
      * eapply Forall2_impl; [exact Hkids|]. cbv beta.
        intros r s' Hr h' Hsame. apply Hr.
        intros q Hq. apply Hsame. lia.
Qed.

Lemma Forall2_exists_list {A B C} (P : A → C → Prop) (Q : B → C → Prop) l k :
  Forall2 (λ a b, ∃ c, P a c ∧ Q b c) l k →
  ∃ m, Forall2 P l m ∧ Forall2 Q k m.
Proof.
  induction 1 as [|a b l k (c & Hp & Hq) _ (m & Hl & Hk)].
  - exists []. split; constructor.
  - exists (c :: m). split; by constructor.
Qed.

Lemma toJSON_rebuilds n h r j :
  XmlElement_toJSON n h r = Some j →
  ∃ s, toString n h r false = Some s ∧ rebuilds xmlFmt n j s.
Proof.
  revert r j. induction n as [|n IH]; intros r j; [done|].
  rewrite XmlElement_toJSON_unfold.
  destruct (heap_elements h !! r) as [e|] eqn:He; [|done]. cbn [mbind option_bind].
  destruct (mapM (XmlElement_toJSON n h) (children e)) as [cs|] eqn:Hcs; [|done].
  cbn [mbind option_bind]. intros [= <-].
  apply mapM_Some_1 in Hcs.
  assert (Forall2 (λ c jc, ∃ s, toString n h c false = Some s ∧ rebuilds xmlFmt n jc s)
                  (children e) cs) as Hkids.
  { eapply Forall2_impl; [exact Hcs|]. cbv beta. intros c jc Hc. by apply IH. }
  apply Forall2_exists_list in Hkids as (ss & Hss & Hrebuilt).
  apply mapM_Some_2 in Hss.
  destruct (toString_is_Some_step n h r e He) as [s Hs]; [by eexists|].
  exists s. split; [done|].
  intros h0.
  set (this := length (heap_elements h0)).
  set (ha := mkHeap (heap_elements h0
                       ++ [mkXmlElement (name e) (attributes e) (content e) None []])
                    (heap_documents h0)).
  assert (length (heap_elements ha) = S this) as Hlen.
  { unfold ha, this. simpl. rewrite length_app. simpl. lia. }
  destruct (attach_all_rebuilt n cs ss Hrebuilt ha this ltac:(lia))
    as (hf & new & Hrun & Hle & Hdocs & Hold & Hthis & Hnew).
  assert (heap_elements hf !! this
          = Some (mkXmlElement (name e) (attributes e) (content e) None new)) as Hthis'.
  { rewrite Hthis. unfold ha, this. simpl.
    by rewrite lookup_app_r, Nat.sub_diag. }
  exists hf. split_and!.
  - rewrite fromJSON_run. fold this. fold ha. by rewrite Hrun.
  - lia.
  - by rewrite Hdocs.
  - intros q Hq. rewrite Hold by (fold this in Hq; lia).
    unfold ha. simpl. by rewrite lookup_app_l.
  - intros h' Hsame.
    pose proof (Hsame this ltac:(fold this; lia)) as Hshape.
    rewrite Hthis' in Hshape.
    destruct (heap_elements h' !! this) as [e'|] eqn:He'; [|done].
    injection Hshape as Hn Ha Hc Hch.
    rewrite <- Hs. apply (toString_same_shape n h h' r this e e' He He' Hn Ha Hc).
    + rewrite Hch. apply mapM_Some_1, Forall2_length in Hss.
      apply Forall2_length in Hnew. lia.
    + rewrite Hss, Hch. apply mapM_Some_2.
      eapply Forall2_impl; [exact Hnew|]. cbv beta.
      intros c s' Hc'. apply Hc'.
      intros q Hq. apply Hsame. fold this. lia.
Qed.

End roundtrip.

(** C2. For an element tree (everything below the element is reached
    within [depth] steps), [toJSON] succeeds, [toString] succeeds, and the
    element rebuilt from the [toJSON] projection serialises to exactly the
    same text as the original, with or without pretty printing; the
    original's text is unaffected by the rebuilding. *)
Theorem toJSON_keeps_what_toString_reads (xmlFmt : string → string) (depth : nat)
    (h : Heap) (r : ref) (fmt : bool) :
  is_tree depth h r = true →
  ∃ j s h' r',
    XmlElement_toJSON depth h r = Some j ∧
    XmlElement_toString xmlFmt depth h r fmt = Some s ∧
    fromJSON j h = (h', Returned r') ∧
    XmlElement_toString xmlFmt depth h' r' fmt = Some s ∧
    XmlElement_toString xmlFmt depth h' r fmt = Some s.
Proof.
  intros Htree.
  destruct (is_tree_toJSON depth h r Htree) as [j Hj].
  destruct (toJSON_rebuilds xmlFmt depth h r j Hj) as (s & Hs & Hre).
  destruct (Hre h) as (h' & Hrun & Hlt & Hdocs & Hold & Hloc).
  exists j, ((λ s, if fmt then xmlFmt s else s) s), h', (length (heap_elements h)).
  split_and!.
  - done.
  - rewrite toString_fmt, Hs. done.
  - done.
  - rewrite toString_fmt, (Hloc h'); [done|]. by intros q Hq.
  - rewrite toString_fmt, (toString_extend xmlFmt depth h h' r s); [done| |done].
    intros q e He. rewrite Hold; [done|]. by eapply lookup_lt_Some.
Qed.

(** The tree [<users><user id="1">Brad</user><!-- end --></users>]. *)
Lemma toJSON_keeps_what_toString_reads_witness :
  let h := mkHeap [mkXmlElement "users" None None None [1; 2];
                   mkXmlElement "user" (Some [("id", "1")]) (Some "Brad")
                     (Some (ParentElement 0)) [];
                   mkXmlElement comment_name None (Some "end") (Some (ParentElement 0)) []]
                  [] in
  ∃ j s h' r',
    XmlElement_toJSON 2 h 0 = Some j ∧
    XmlElement_toString id 2 h 0 false = Some s ∧
    fromJSON j h = (h', Returned r') ∧
    XmlElement_toString id 2 h' r' false = Some s ∧
    XmlElement_toString id 2 h' 0 false = Some s.
Proof.
  intros h. exact (toJSON_keeps_what_toString_reads id 2 h 0 false eq_refl).
Defined.

(* ================================================================== *)
(** * Part III: properties of the Construct tree                       *)
(* ================================================================== *)

Import Construct.

(** ** The builder map *)

Section JsMap_facts.
Context {K V : Type} `{EqDecision K}.
Implicit Types (m regs : list (K * V)) (kv : K * V) (k : K) (v : V).

Lemma Map_has_true m k : Map_has m k = true ↔ k ∈ m.*1.
Proof. unfold Map_has. apply bool_decide_eq_true. Qed.

Lemma Map_has_false m k : Map_has m k = false ↔ k ∉ m.*1.
Proof. unfold Map_has. apply bool_decide_eq_false. Qed.

Lemma Map_set_absent m k v : k ∉ m.*1 → Map_set m k v = m ++ [(k, v)].
Proof.
  induction m as [|[k' v'] m IH]; [done|]. simpl.
  rewrite not_elem_of_cons. intros [Hne Hm].
  rewrite decide_False by done. by rewrite IH.
Qed.

Lemma add_if_absent_present m k v : k ∈ m.*1 → add_if_absent m (k, v) = m.
Proof. intros Hk. unfold add_if_absent. simpl. by rewrite (proj2 (Map_has_true m k)). Qed.

Lemma add_if_absent_absent m k v : k ∉ m.*1 → add_if_absent m (k, v) = m ++ [(k, v)].
Proof.
  intros Hk. unfold add_if_absent. simpl.
  rewrite (proj2 (Map_has_false m k)) by done. by apply Map_set_absent.
Qed.

Lemma first_for_cons_eq kv regs : first_for (kv :: regs) kv.
Proof. exists [], regs. split; [done|]. simpl. apply not_elem_of_nil. Qed.

Lemma first_for_cons_ne kv' regs kv :
  kv.1 ≠ kv'.1 → first_for (kv' :: regs) kv ↔ first_for regs kv.
Proof.
  intros Hne. split.
  - intros (pre & post & Heq & Hpre). destruct pre as [|x pre]; simplify_eq/=.
    exists pre, post. split; [done|]. by apply not_elem_of_cons in Hpre as [_ ?].
  - intros (pre & post & -> & Hpre). exists (kv' :: pre), post. split; [done|].
    simpl. by apply not_elem_of_cons.
Qed.

Lemma first_for_cons_inv kv' regs kv :
  first_for (kv' :: regs) kv → kv = kv' ∨ (kv.1 ≠ kv'.1 ∧ first_for regs kv).
Proof.
  intros (pre & post & Heq & Hpre). destruct pre as [|x pre]; simplify_eq/=.
  - by left.
  - right. apply not_elem_of_cons in Hpre as [? ?]. split; [done|].
    by exists pre, post.
Qed.

Lemma Map_get_elem m k v : NoDup m.*1 → (k, v) ∈ m → Map_get m k = Some v.
Proof.
  induction m as [|[k' v'] m IH]; [by intros _ ?%elem_of_nil|].
  simpl. intros [Hk' Hnd]%NoDup_cons. rewrite elem_of_cons. intros [[= -> ->]|Hin].
  - by rewrite decide_True.
  - rewrite decide_False; [by apply IH|].
    intros ->. apply Hk'. apply list_elem_of_fmap. by exists (k, v).
Qed.

Lemma foldl_add_if_absent regs : ∀ m,
  NoDup m.*1 →
  ∃ added,
    foldl add_if_absent m regs = m ++ added ∧
    (added `sublist_of` regs) ∧
    NoDup (m ++ added).*1 ∧
    (∀ kv, kv ∈ added ↔ (kv.1 ∉ m.*1) ∧ first_for regs kv).
Proof.
  induction regs as [|[k v] regs IH]; intros m Hm.
  - exists []. rewrite app_nil_r. split_and!; [done..|].
    intros kv. split.
    + by intros ?%elem_of_nil.
    + intros [_ (pre & post & Heq & _)]. by destruct pre.
  - simpl. destruct (decide (k ∈ m.*1)) as [Hk|Hk].
    + rewrite add_if_absent_present by done.
      destruct (IH m Hm) as (added & Hfold & Hsub & Hnd & Hchar).
      exists added. split_and!; [done| |done|].
      * by apply sublist_cons.
      * intros kv. rewrite Hchar. split; intros [Hkv Hfirst]; (split; [done|]).
        -- apply first_for_cons_ne; [|done]. simpl. intros Heq. apply Hkv. by rewrite Heq.
        -- apply first_for_cons_inv in Hfirst as [->|[_ ?]]; [|done]. done.
    + rewrite add_if_absent_absent by done.
      assert (NoDup (m ++ [(k, v)]).*1) as Hm'.
      { rewrite fmap_app. apply NoDup_app. split_and!; [done| |apply NoDup_singleton].
        simpl. intros x Hx ->%list_elem_of_singleton. done. }
      destruct (IH (m ++ [(k, v)]) Hm') as (added & Hfold & Hsub & Hnd & Hchar).
      exists ((k, v) :: added). rewrite Hfold, <- app_assoc in *. simpl in *.
      split_and!; [done| |done|].
      * by apply sublist_skip.
      * intros kv. rewrite elem_of_cons, Hchar. rewrite fmap_app, not_elem_of_app.
        simpl. rewrite list_elem_of_singleton. split.
        -- intros [->|[[Hkv Hne] Hfirst]].
           ++ split; [done|]. apply first_for_cons_eq.
           ++ split; [done|]. by apply (first_for_cons_ne (k, v)).
        -- intros [Hkv Hfirst].
           apply first_for_cons_inv in Hfirst as [->|[Hne ?]]; [by left|by right].
Qed.

End JsMap_facts.

Lemma foldl_add_if_absent_same_key {K V} `{EqDecision K} (m : list (K * V)) k rest :
  k ∈ m.*1 → Forall (λ kv, kv.1 = k) rest → foldl add_if_absent m rest = m.
Proof.
  intros Hk. induction 1 as [|[k' v'] rest Heq _ IH]; [done|].
  simpl in *. subst k'. by rewrite add_if_absent_present.
Qed.

Lemma list_alter_lookup {A} (f : A → A) (l : list A) i x :
  l !! i = Some x → alter f i l = <[i := f x]> l.
Proof.
  intros Hx. rewrite list_insert_alter. apply list_alter_ext; [|done].
  intros y Hy. congruence.
Qed.

Lemma set_xmlBuilders_same c : set_xmlBuilders (_xmlBuilders c) c = c.
Proof. by destruct c. Qed.

Lemma addXmlBuilder_lookup s this c sym b :
  s !! this = Some c →
  _addXmlBuilder this sym b s
  = <[this := set_xmlBuilders (add_if_absent (_xmlBuilders c) (sym, b)) c]> s.
Proof.
  intros Hc. unfold _addXmlBuilder. rewrite (list_alter_lookup _ _ _ _ Hc).
  f_equal. unfold add_if_absent. simpl.
  destruct (Map_has _ _); [|done]. by rewrite set_xmlBuilders_same.
Qed.

Lemma register_all_lookup regs : ∀ s this c,
  s !! this = Some c →
  register_all this regs s
  = <[this := set_xmlBuilders (foldl add_if_absent (_xmlBuilders c) regs) c]> s.
Proof.
  induction regs as [|[k v] regs IH]; intros s this c Hc.
  - unfold register_all. cbn [foldl]. rewrite set_xmlBuilders_same.
    symmetry. by apply list_insert_id.
  - unfold register_all in *. cbn [foldl fst snd].
    rewrite (addXmlBuilder_lookup _ _ _ _ _ Hc).
    erewrite IH; [|apply list_lookup_insert_eq; by eapply lookup_lt_Some].
    by rewrite list_insert_insert_eq.
Qed.

(** C4. A call of [_addXmlBuilder] whose key the node's map already
    holds changes nothing; a call with a new key appends the entry. So
    after any run of registrations on a node, its map is the former map
    followed by, in the order they were registered, one entry per new
    key, carrying the callback of the first registration of that key,
    which is what the map then returns for the key; and after
    registrations that all use one new key, the map holds exactly the
    first callback for it. *)
Theorem addXmlBuilder_first_registration_wins (s : Store) (this : ref) (c : Construct.Construct) :
  s !! this = Some c →
  NoDup (_xmlBuilders c).*1 →
  (∀ sym b, sym ∈ (_xmlBuilders c).*1 → _addXmlBuilder this sym b s = s) ∧
  (∀ sym b, sym ∉ (_xmlBuilders c).*1 →
     _addXmlBuilder this sym b s
     = <[this := set_xmlBuilders (_xmlBuilders c ++ [(sym, b)]) c]> s) ∧
  (∀ regs, ∃ added,
     register_all this regs s
       = <[this := set_xmlBuilders (_xmlBuilders c ++ added) c]> s ∧
     (added `sublist_of` regs) ∧
     NoDup (_xmlBuilders c ++ added).*1 ∧
     (∀ kv, kv ∈ added ↔ (kv.1 ∉ (_xmlBuilders c).*1) ∧ first_for regs kv) ∧
     (∀ kv, kv ∈ added → Map_get (_xmlBuilders c ++ added) kv.1 = Some kv.2)) ∧
  (∀ sym b rest, sym ∉ (_xmlBuilders c).*1 → Forall (λ kv, kv.1 = sym) rest →
     register_all this ((sym, b) :: rest) s
     = <[this := set_xmlBuilders (_xmlBuilders c ++ [(sym, b)]) c]> s).
Proof.
  intros Hc Hnd. split_and!.
  - intros sym b Hin. rewrite (addXmlBuilder_lookup _ _ _ _ _ Hc).
    rewrite add_if_absent_present by done.
    rewrite set_xmlBuilders_same. by apply list_insert_id.
  - intros sym b Hnot. rewrite (addXmlBuilder_lookup _ _ _ _ _ Hc).
    by rewrite add_if_absent_absent.
  - intros regs.
    destruct (foldl_add_if_absent regs (_xmlBuilders c) Hnd)
      as (added & Hfold & Hsub & Hnd' & Hchar).
    exists added. split_and!; [|done..|].
    + by rewrite (register_all_lookup _ _ _ _ Hc), Hfold.
    + intros [k v] Hin. apply Map_get_elem; [done|].
      apply elem_of_app. by right.
  - intros sym b rest Hnot Hrest.
    rewrite (register_all_lookup _ _ _ _ Hc). simpl.
    rewrite add_if_absent_absent by done.
    rewrite foldl_add_if_absent_same_key with (k := sym); [done| |done].
    rewrite fmap_app. apply elem_of_app. right. simpl. apply list_elem_of_singleton. done.
Qed.

(** [k.Trigger(...)] three times: three registrations under the key of
    the class, each with its own callback. *)
Lemma addXmlBuilder_first_registration_wins_witness :
  let b (tag : string) : Builder := λ x, XmlElement_Node x [ArgString tag] ;; ret tt in
  let k := KeyFunction 7 in
  let s := [mkConstruct None ∅ []] in
  register_all 0 [(k, b "first"); (k, b "second"); (k, b "third")] s
  = [mkConstruct None ∅ [(k, b "first")]].
Proof.
  intros b k s.
  pose proof (addXmlBuilder_first_registration_wins s 0 _ eq_refl NoDup_nil_2)
    as (_ & _ & _ & Hsame).
  apply (Hsame k (b "first")).
  - apply not_elem_of_nil.
  - by repeat constructor.
Defined.

(** ** The root and its documents *)



(** The order of construction is an invariant: it holds of the empty
    store, the constructor keeps it when the scope it is given exists
    already, and the two registries never touch [scope]. *)
Lemma scopes_older_nil : scopes_older [].
Proof. intros r c p Hc. by rewrite lookup_nil in Hc. Qed.

Lemma Construct_new_scopes_older s sc :
  scopes_older s →
  (∀ p, sc = Some p → p < length s) →
  scopes_older (Construct_new sc None s).1.
Proof.
  intros Hwf Hsc r c p Hc Hp. simpl in Hc.
  destruct (decide (r < length s)) as [Hlt|Hge].
  - rewrite lookup_app_l in Hc by done. by eapply Hwf.
  - rewrite lookup_app_r in Hc by lia.
    destruct (r - length s) as [|n] eqn:Hr; simplify_eq/=.
    specialize (Hsc p eq_refl). lia.
Qed.

Lemma scopes_older_insert s r c c' :
  scopes_older s → s !! r = Some c → scope c' = scope c →
  scopes_older (<[r := c']> s).
Proof.
  intros Hwf Hc Hscope q cq p Hq Hp.
  destruct (decide (r = q)) as [->|Hne].
  - rewrite list_lookup_insert_eq in Hq by (by eapply lookup_lt_Some).
    injection Hq as <-. rewrite Hscope in Hp. by eapply Hwf.
  - rewrite list_lookup_insert_ne in Hq by done. by eapply Hwf.
Qed.

Lemma list_alter_unallocated {A} (f : A → A) (l : list A) i :
  l !! i = None → alter f i l = l.
Proof.
  revert i. induction l as [|x l IH]; intros [|i] Hi; simplify_eq/=; try done.
  f_equal. by apply IH.
Qed.

Lemma addXmlBuilder_scopes_older s this sym b :
  scopes_older s → scopes_older (_addXmlBuilder this sym b s).
Proof.
  intros Hwf. destruct (s !! this) as [c|] eqn:Hc.
  - rewrite (addXmlBuilder_lookup _ _ _ _ _ Hc). by eapply scopes_older_insert.
  - unfold _addXmlBuilder. by rewrite list_alter_unallocated.
Qed.

Lemma addXmlDoc_scopes_older s this path doc :
  scopes_older s → scopes_older (_addXmlDoc this path doc s).
Proof.
  intros Hwf. unfold _addXmlDoc.
  destruct (_rootNode s this) as [r|]; [|done].
  destruct (s !! r) as [c|] eqn:Hc; cbn [fmap option_fmap option_map]; [|done].
  destruct (get_property (_xmlDocs c) path); [done|done|].
  rewrite (list_alter_lookup (λ c, set_xmlDocs (<[path := doc]> (_xmlDocs c)) c) _ _ _ Hc).
  by eapply scopes_older_insert.
Qed.








(** ** [Construct.push] *)

Lemma get_lookup scope key s o :
  objects s !! scope = Some o → get scope key s = default VUndefined (o !! key).
Proof. intros Ho. unfold get. by rewrite Ho. Qed.

Lemma push_array scope key value s o a :
  objects s !! scope = Some o →
  o !! key = Some (VArray a) →
  push scope key value s
  = mkObjects (alter (λ l, l ++ [value]) a (arrays s)) (objects s).
Proof.
  intros Ho Hk. unfold push.
  rewrite (get_lookup _ _ _ _ Ho), Hk. simpl.
  by rewrite (get_lookup _ _ _ _ Ho), Hk.
Qed.

Lemma push_fresh scope key value s o :
  objects s !! scope = Some o →
  isArray (default VUndefined (o !! key)) = false →
  push scope key value s
  = mkObjects (arrays s ++ [[value]])
              (<[scope := <[key := VArray (length (arrays s))]> o]> (objects s)).
Proof.
  intros Ho Hk. unfold push.
  rewrite (get_lookup _ _ _ _ Ho), Hk.
  rewrite (list_alter_lookup (λ o, <[key := VArray (length (arrays s))]> o) _ _ _ Ho).
  erewrite get_lookup; [|simpl; apply list_lookup_insert_eq; by eapply lookup_lt_Some].
  rewrite lookup_insert_eq. simpl. by rewrite alter_last.
Qed.

(** C10. After [push(scope, key, value)], [scope[key]] is an array whose
    items end with [value]. If [scope[key]] was an array, it is the same
    array object, with its former items, in order, before [value]; if it
    was anything else (undefined or not), it is a new array holding
    [value] alone. The other keys of [scope], the other objects and the
    other arrays are as they were. *)
Theorem push_appends_value (s : Objects) (scope : ref) (key : string) (value : Value)
    (o : gmap string Value) :
  objects s !! scope = Some o →
  (∀ a, o !! key = Some (VArray a) → a < length (arrays s)) →
  let s' := push scope key value s in
  ∃ a items,
    get scope key s' = VArray a ∧
    arrays s' !! a = Some (items ++ [value]) ∧
    (∀ a0, get scope key s = VArray a0 →
       a = a0 ∧ arrays s !! a0 = Some items ∧ objects s' = objects s) ∧
    (isArray (get scope key s) = false →
       a = length (arrays s) ∧ items = [] ∧
       objects s' = <[scope := <[key := VArray a]> o]> (objects s)) ∧
    (∀ key', key' ≠ key → get scope key' s' = get scope key' s) ∧
    (∀ scope', scope' ≠ scope → objects s' !! scope' = objects s !! scope') ∧
    (∀ a', a' ≠ a → a' < length (arrays s) → arrays s' !! a' = arrays s !! a').
Proof.
  intros Ho Hwf s'.
  pose proof (get_lookup scope key s o Ho) as Hget.
  destruct (isArray (get scope key s)) eqn:Harr.
  - destruct (get scope key s) as [| a0 | |] eqn:Hv; try done.
    assert (o !! key = Some (VArray a0)) as Hk.
    { rewrite Hget in Hv. by destruct (o !! key) as [[]|]; simplify_eq/=. }
    destruct (lookup_lt_is_Some_2 _ _ (Hwf a0 Hk)) as [items Hitems].
    assert (s' = mkObjects (alter (λ l, l ++ [value]) a0 (arrays s)) (objects s)) as ->
      by (by apply (push_array _ _ _ _ o)).
    exists a0, items. split_and!.
    + rewrite (get_lookup _ _ _ o) by done. by rewrite Hk.
    + simpl. by rewrite list_lookup_alter_eq, Hitems.
    + by intros ? [= <-].
    + done.
    + intros key' _. by rewrite !(get_lookup _ _ _ o).
    + done.
    + intros a' Hne _. simpl. by rewrite list_lookup_alter_ne.
  - assert (s' = mkObjects (arrays s ++ [[value]])
                   (<[scope := <[key := VArray (length (arrays s))]> o]> (objects s))) as ->.
    { apply push_fresh; [done|]. by rewrite <- Hget. }
    assert (scope < length (objects s)) as Hlt by (by eapply lookup_lt_Some).
    exists (length (arrays s)), []. split_and!.
    + erewrite get_lookup; [|simpl; by apply list_lookup_insert_eq].
      by rewrite lookup_insert_eq.
    + simpl. by rewrite lookup_app_r, Nat.sub_diag.
    + intros a0 Ha0. by rewrite Ha0 in Harr.
    + done.
    + intros key' Hne.
      erewrite get_lookup; [|simpl; by apply list_lookup_insert_eq].
      rewrite lookup_insert_ne by done. by rewrite (get_lookup _ _ _ o).
    + intros scope' Hne. simpl. by rewrite list_lookup_insert_ne.
    + intros a' _ Hlt'. simpl. by rewrite lookup_app_l.
Qed.

(** A build whose [triggers] is an array of one trigger and whose [name]
    is not an array: a second trigger is pushed, then, under [name], a
    value. *)
Lemma push_appends_value_witness :
  let o : gmap string Value := <["triggers" := VArray 0]> (<["name" := VOther 1]> ∅) in
  let s := mkObjects [[VObject 5]] [o] in
  arrays (push 0 "triggers" (VObject 6) s) !! 0 = Some [VObject 5; VObject 6] ∧
  get 0 "name" (push 0 "name" (VObject 6) s) = VArray 1 ∧
  arrays (push 0 "name" (VObject 6) s) !! 1 = Some [VObject 6].
Proof.
  intros o s.
  assert (get 0 "triggers" s = VArray 0) as Ht.
  { unfold get, s, o. simpl. by rewrite lookup_insert_eq. }
  assert (get 0 "name" s = VOther 1) as Hn.
  { unfold get, s, o. simpl. rewrite lookup_insert_ne by done. by rewrite lookup_insert_eq. }
  assert (∀ key a, o !! key = Some (VArray a) → a < length (arrays s)) as Hwf.
  { intros key a. unfold o.
    destruct (decide (key = "triggers")) as [->|];
      [rewrite lookup_insert_eq; intros [= <-]; simpl; lia|].
    rewrite lookup_insert_ne by done.
    destruct (decide (key = "name")) as [->|]; [by rewrite lookup_insert_eq|].
    by rewrite lookup_insert_ne, lookup_empty. }
  destruct (push_appends_value s 0 "triggers" (VObject 6) o eq_refl (Hwf _))
    as (a & items & _ & Harr & Hold & _).
  destruct (Hold 0 Ht) as (-> & [= <-] & _).
  destruct (push_appends_value s 0 "name" (VObject 6) o eq_refl (Hwf _))
    as (a' & items' & Hget' & Harr' & _ & Hnew & _).
  rewrite Hn in Hnew. destruct (Hnew eq_refl) as (-> & -> & _).
  split_and!.
  - exact Harr.
  - exact Hget'.
  - exact Harr'.
Defined.

(* ================================================================== *)
(** * Part IV: further properties of the two classes                   *)
(* ================================================================== *)

Import Programs.

(** ** The constructor and [Node] *)

Lemma XmlElement_new_parsed args a h :
  parseArgs args = inr a →
  XmlElement_new args h =
    let this := length (heap_elements h) in
    match na_builder a with
    | Some builder =>
        match builder this (with_new_element a h) with
        | (h', Returned _) => (h', Returned this)
        | (h', Thrown err) => (h', Thrown err)
        end
    | None => (with_new_element a h, Returned this)
    end.
Proof.
  intros Hp. unfold XmlElement_new. rewrite Hp.
  unfold bind, alloc_element, with_new_element. simpl.
  destruct (na_builder a) as [b|]; [|done].
  unfold bind. by destruct (b _ _) as [h2 [[]|err]].
Qed.

Lemma node_of_args_as_new args h :
  (∀ e, args !! 0 ≠ Some (ArgElement e)) →
  node_of_args args h = XmlElement_new args h.
Proof.
  intros Hne. destruct (parseArgs args) as [err|a] eqn:Hp.
  - unfold node_of_args, XmlElement_new. rewrite Hp.
    destruct (args !! 0) as [[]|] eqn:H0; try done. by destruct (Hne e).
  - by rewrite (node_of_args_parsed _ _ _ Hp), (XmlElement_new_parsed _ _ _ Hp).
Qed.

(** X1. Unless the first argument is an element, [parent.Node(...args)]
    is [parent.Node(new XmlElement(...args))]: the same element, the same
    store, and the same error if the arguments are rejected or the builder
    throws. With an element first the two differ: [Node] attaches it, the
    constructor rejects it. *)
Theorem Node_of_constructed_element (this : ref) (args : list Arg) (h : Heap) :
  ((∀ e, args !! 0 ≠ Some (ArgElement e)) →
   (e <- XmlElement_new args ;; XmlElement_Node this [ArgElement e]) h
   = XmlElement_Node this args h) ∧
  (∀ e rest, args = ArgElement e :: rest →
   XmlElement_new args h = (h, Thrown no_name_error) ∧
   XmlElement_Node this args h = (attach_child this e h, Returned e)).
Proof.
  split.
  - intros Hne. pose proof (node_of_args_as_new args h Hne) as Hnew.
    unfold bind at 1.
    destruct (XmlElement_new args h) as [h1 [e|err]].
    + rewrite (XmlElement_Node_attach this [ArgElement e] h1 h1 e eq_refl).
      symmetry. by apply XmlElement_Node_attach.
    + symmetry. by apply XmlElement_Node_throw.
  - intros e rest ->. split; [done|].
    by apply XmlElement_Node_attach.
Qed.

(** [x.Node("param", {name: "a"})] against
    [x.Node(new XmlElement("param", {name: "a"}))]. *)
Lemma Node_of_constructed_element_witness :
  let h := mkHeap [mkXmlElement "x" None None None []] [] in
  let args := [ArgString "param"; ArgObject [("name", "a")]] in
  (e <- XmlElement_new args ;; XmlElement_Node 0 [ArgElement e]) h
  = XmlElement_Node 0 args h.
Proof.
  intros h args.
  apply (proj1 (Node_of_constructed_element 0 args h)).
  intros e. discriminate.
Defined.

(** X2. [Node] never detaches: an element attached to a second parent is
    still among the children of the first, so it is listed (and rendered)
    under both, while its [parent] names the second only; attached twice
    to one parent, it is listed twice. *)
Theorem Node_does_not_detach (h : Heap) (p1 p2 e : ref) (c1 c2 : list ref) :
  children <$> heap_elements h !! p1 = Some c1 →
  children <$> heap_elements h !! p2 = Some c2 →
  e < length (heap_elements h) →
  e ≠ p1 → e ≠ p2 →
  ∃ h1 h2 h2',
    XmlElement_Node p1 [ArgElement e] h = (h1, Returned e) ∧
    XmlElement_Node p2 [ArgElement e] h1 = (h2, Returned e) ∧
    XmlElement_Node p1 [ArgElement e] h1 = (h2', Returned e) ∧
    (p1 ≠ p2 →
     children <$> heap_elements h2 !! p1 = Some (c1 ++ [e]) ∧
     children <$> heap_elements h2 !! p2 = Some (c2 ++ [e])) ∧
    parent <$> heap_elements h2 !! e = Some (Some (ParentElement p2)) ∧
    children <$> heap_elements h2' !! p1 = Some (c1 ++ [e; e]).
Proof.
  intros Hc1 Hc2 He Hne1 Hne2.
  exists (attach_child p1 e h), (attach_child p2 e (attach_child p1 e h)),
         (attach_child p1 e (attach_child p1 e h)).
  assert (children <$> heap_elements (attach_child p1 e h) !! p1 = Some (c1 ++ [e])) as H1.
  { rewrite attach_child_children.
    destruct (heap_elements h !! p1) as [x|]; simplify_eq/=. done. }
  split_and!.
  - by apply XmlElement_Node_attach.
  - by apply XmlElement_Node_attach.
  - by apply XmlElement_Node_attach.
  - intros Hne. split.
    + rewrite <- H1. f_equal. by apply attach_child_other.
    + rewrite attach_child_children, attach_child_other by done.
      destruct (heap_elements h !! p2) as [x|]; simplify_eq/=. done.
  - apply attach_child_parent. by rewrite attach_child_length.
  - rewrite attach_child_children.
    destruct (heap_elements (attach_child p1 e h) !! p1) as [x|]; [|done].
    injection H1 as H1. simpl. by rewrite H1, <- app_assoc.
Qed.

(** Two lists and an item moved from one to the other. *)
Lemma Node_does_not_detach_witness :
  let h := mkHeap [mkXmlElement "a" None None None [];
                   mkXmlElement "b" None None None [];
                   mkXmlElement "item" None None None []] [] in
  ∃ h1 h2,
    XmlElement_Node 0 [ArgElement 2] h = (h1, Returned 2) ∧
    XmlElement_Node 1 [ArgElement 2] h1 = (h2, Returned 2) ∧
    children <$> heap_elements h2 !! 0 = Some [2] ∧
    children <$> heap_elements h2 !! 1 = Some [2] ∧
    parent <$> heap_elements h2 !! 2 = Some (Some (ParentElement 1)).
Proof.
  intros h.
  destruct (Node_does_not_detach h 0 1 2 [] [] eq_refl eq_refl (le_n 3)
              ltac:(discriminate) ltac:(discriminate))
    as (h1 & h2 & _ & H1 & H2 & _ & Hc & Hp & _).
  destruct (Hc ltac:(discriminate)) as [Ha Hb].
  exists h1, h2. split_and!.
  - exact H1.
  - exact H2.
  - exact Ha.
  - exact Hb.
  - exact Hp.
Defined.

(** ** Elements that contain themselves *)

Lemma toString_self_child xmlFmt h x e :
  heap_elements h !! x = Some e →
  x ∈ children e →
  name e ≠ comment_name → name e ≠ cdata_name →
  ∀ fuel fmt, XmlElement_toString xmlFmt fuel h x fmt = None.
Proof.
  intros He Hin Hn1 Hn2 fuel fmt. rewrite toString_fmt.
  assert (XmlElement_toString xmlFmt fuel h x false = None) as ->; [|done].
  induction fuel as [|fuel IH]; [done|].
  cbn [XmlElement_toString]. rewrite He. cbn [mbind option_bind].
  rewrite !decide_False by done.
  rewrite bool_decide_eq_false_2; [|destruct (children e); [by apply elem_of_nil in Hin|done]].
  cbn [andb].
  assert (mapM (λ child, XmlElement_toString xmlFmt fuel h child false) (children e) = None)
    as ->; [|done].
  apply mapM_None_2, Exists_exists. by exists x.
Qed.

Lemma toJSON_self_child h x e :
  heap_elements h !! x = Some e →
  x ∈ children e →
  ∀ fuel, XmlElement_toJSON fuel h x = None.
Proof.
  intros He Hin fuel. induction fuel as [|fuel IH]; [done|].
  rewrite XmlElement_toJSON_unfold, He. cbn [mbind option_bind].
  assert (mapM (XmlElement_toJSON fuel h) (children e) = None) as ->; [|done].
  apply mapM_None_2, Exists_exists. by exists x.
Qed.

(** X3. [Node] accepts an element as its own child: [x.Node(x)] returns
    [x], now its own parent and its own last child. After that, the
    recursion of [toJSON] on [x] has no end, and neither has that of
    [toString] unless [x] is a comment or CDATA node: no depth suffices
    for a result. *)
Theorem self_child_never_serialises (xmlFmt : string → string) (h : Heap) (x : ref)
    (e : XmlElement) :
  heap_elements h !! x = Some e →
  let h' := attach_child x x h in
  XmlElement_Node x [ArgElement x] h = (h', Returned x) ∧
  heap_elements h' !! x
    = Some (mkXmlElement (name e) (attributes e) (content e) (Some (ParentElement x))
              (children e ++ [x])) ∧
  (∀ fuel, XmlElement_toJSON fuel h' x = None) ∧
  (name e ≠ comment_name → name e ≠ cdata_name →
   ∀ fuel fmt, XmlElement_toString xmlFmt fuel h' x fmt = None).
Proof.
  intros He h'.
  assert (heap_elements h' !! x
          = Some (mkXmlElement (name e) (attributes e) (content e) (Some (ParentElement x))
                    (children e ++ [x]))) as He'.
  { unfold h', attach_child. simpl. by rewrite !list_lookup_alter_eq, He. }
  assert (x ∈ children e ++ [x]) as Hin by (apply elem_of_app; right; by apply list_elem_of_singleton).
  split_and!.
  - by apply XmlElement_Node_attach.
  - done.
  - by apply (toJSON_self_child h' x _ He').
  - intros Hn1 Hn2. by apply (toString_self_child xmlFmt h' x _ He').
Qed.

(** [x.Node(x)] on a one-element store. *)
Lemma self_child_never_serialises_witness :
  let h := mkHeap [mkXmlElement "x" None None None []] [] in
  let h' := mkHeap [mkXmlElement "x" None None (Some (ParentElement 0)) [0]] [] in
  XmlElement_Node 0 [ArgElement 0] h = (h', Returned 0) ∧
  ∀ fuel, XmlElement_toString id fuel h' 0 false = None.
Proof.
  intros h h'.
  destruct (self_child_never_serialises id h 0 _ eq_refl) as (Hrun & _ & _ & Hs).
  split.
  - exact Hrun.
  - intros fuel. exact (Hs ltac:(discriminate) ltac:(discriminate) fuel false).
Defined.

(** ** What escaping loses *)

(** X4. Escaping an attribute value is idempotent, but not injective:
    since [&] is left alone, a value holding a double quote and the value
    holding [&quot;] in its place are different values with the same
    rendering. *)
Theorem escape_idempotent_not_injective :
  (∀ v, escape (escape v) = escape v) ∧
  (∀ v w, v +:+ String JsString.dquote w ≠ v +:+ "&quot;" +:+ w ∧
          escape (v +:+ String JsString.dquote w) = escape (v +:+ "&quot;" +:+ w) ∧
          render_attribute ("k", v +:+ String JsString.dquote w)
          = render_attribute ("k", v +:+ "&quot;" +:+ w)).
Proof.
  split.
  - intros v. apply escape_id, escape_no_dquote.
  - intros v w.
    assert (escape (v +:+ String JsString.dquote w) = escape (v +:+ "&quot;" +:+ w)) as Heq.
    { rewrite !escape_app, escape_cons_dquote. reflexivity. }
    split_and!.
    + intros Hvw. apply (inj (String.app v)) in Hvw. discriminate Hvw.
    + done.
    + unfold render_attribute. simpl. by rewrite Heq.
Qed.

(** ** The shapes of arguments *)

(** X5. [parseArgs] throws "No args to parse" exactly on the empty list
    and "an element name must be provided" exactly on a list whose first
    item is not a string; otherwise it returns, with the first item as
    name. It reads the first four arguments only. *)
Theorem parseArgs_outcomes (args : list Arg) :
  (parseArgs args = inl no_args_error ↔ args = []) ∧
  (parseArgs args = inl no_name_error ↔
     ∃ a rest, args = a :: rest ∧ ∀ s, a ≠ ArgString s) ∧
  ((∃ r, parseArgs args = inr r) ↔ ∃ s rest, args = ArgString s :: rest) ∧
  (∀ r, parseArgs args = inr r → args !! 0 = Some (ArgString (na_name r))) ∧
  parseArgs (take 4 args) = parseArgs args.
Proof.
  split_and!.
  - split; [|by intros ->]. destruct args as [|a rest]; [done|]. by destruct a.
  - split.
    + destruct args as [|a rest]; [done|]. intros Hp. exists a, rest. split; [done|].
      intros s ->. done.
    + intros (a & rest & -> & Ha). destruct a; try done. by destruct (Ha s).
  - split.
    + intros [r Hr]. destruct (parseArgs_name _ _ Hr) as [rest ->]. eauto.
    + intros (s & rest & ->). by eexists.
  - intros r Hr. by destruct (parseArgs_name _ _ Hr) as [rest ->].
  - destruct args as [|a0 [|a1 [|a2 [|a3 rest]]]]; reflexivity.
Qed.

(** A name, an attributes record and a callback. *)
Lemma parseArgs_outcomes_witness :
  let b : Builder := λ _, ret tt in
  (∃ r, parseArgs [ArgString "n"; ArgObject [("k", "v")]; ArgFunction b] = inr r) ∧
  parseArgs [ArgObject [("k", "v")]] = inl no_name_error.
Proof.
  intros b. split.
  - apply (proj2 (proj1 (proj2 (proj2 (parseArgs_outcomes _))))). by eexists _, _.
  - apply (proj2 (proj1 (proj2 (parseArgs_outcomes _)))).
    eexists _, _. split; [reflexivity|]. intros s. discriminate.
Defined.

(** X6. Each of the eight declared overloads is parsed into the
    components its signature names, whatever their values: a string in
    second place is the content, a record in second place the attributes
    (the content then being a string in third place), and the callback is
    found wherever the overloads put it. *)
Theorem parseArgs_overloads (n : string) (o : Attributes) (c : string) (b : Builder) :
  parseArgs [ArgString n] = inr (mkNodeArgs n None None None) ∧
  parseArgs [ArgString n; ArgString c] = inr (mkNodeArgs n (Some c) None None) ∧
  parseArgs [ArgString n; ArgObject o] = inr (mkNodeArgs n None (Some o) None) ∧
  parseArgs [ArgString n; ArgObject o; ArgString c] = inr (mkNodeArgs n (Some c) (Some o) None) ∧
  parseArgs [ArgString n; ArgFunction b] = inr (mkNodeArgs n None None (Some b)) ∧
  parseArgs [ArgString n; ArgObject o; ArgFunction b]
    = inr (mkNodeArgs n None (Some o) (Some b)) ∧
  parseArgs [ArgString n; ArgString c; ArgFunction b]
    = inr (mkNodeArgs n (Some c) None (Some b)) ∧
  parseArgs [ArgString n; ArgObject o; ArgString c; ArgFunction b]
    = inr (mkNodeArgs n (Some c) (Some o) (Some b)).
Proof. split_and!; reflexivity. Qed.

(** ** Declaring a tree and projecting it *)

Lemma parseArgs_args_of n cs a c :
  parseArgs (args_of (JsonObject n cs a c))
  = inr (mkNodeArgs n c a (Some (λ x, declare_all args_of x cs))).
Proof. by destruct a, c. Qed.

Lemma args_of_not_element j e : args_of j !! 0 ≠ Some (ArgElement e).
Proof. by destruct j. Qed.

Lemma Json_depth_children n cs a c m :
  Json_depth (JsonObject n cs a c) ≤ S m → Forall (λ j, Json_depth j ≤ m) cs.
Proof.
  cbn [Json_depth]. intros Hd. apply Nat.succ_le_mono in Hd.
  induction cs as [|j cs IH]; [constructor|].
  cbn [foldr] in Hd. constructor; [lia|]. apply IH. lia.
Qed.

Lemma declare_all_declared n cs :
  Forall (declares n) cs →
  ∀ hi x, x < length (heap_elements hi) →
  ∃ hf new,
    declare_all args_of x cs hi = (hf, Returned tt) ∧
    length (heap_elements hi) ≤ length (heap_elements hf) ∧
    heap_documents hf = heap_documents hi ∧
    (∀ q, q < length (heap_elements hi) → q ≠ x →
          heap_elements hf !! q = heap_elements hi !! q) ∧
    heap_elements hf !! x = push_children new <$> heap_elements hi !! x ∧
    Forall2 (λ r j, ∀ h', same_shapes (length (heap_elements hi))
                                      (length (heap_elements hf)) hf h' →
                          XmlElement_toJSON n h' r = Some j) new cs.
Proof.
  induction 1 as [|j cs Hj _ IH]; intros hi x Hx.
  - exists hi, []. split_and!; try done.
    destruct (heap_elements hi !! x) as [e|]; [|done]. simpl.
    unfold push_children. rewrite app_nil_r. by destruct e.
  - destruct (Hj hi) as (hb & Hrun & Hlt & Hdocs & Hold & _ & Hloc).
    remember (length (heap_elements hi)) as r eqn:Hr.
    set (hb' := attach_child x r hb).
    assert (length (heap_elements hb') = length (heap_elements hb)) as Hlen'
      by apply attach_child_length.
    destruct (IH hb' x ltac:(lia)) as (hf & new & Hrest & Hle & Hdocs' & Hold' & Hx' & Hkids).
    exists hf, (r :: new). split_and!.
    + cbn [declare_all]. unfold bind at 1.
      rewrite (XmlElement_Node_attach x (args_of j) hi hb r).
      * exact Hrest.
      * by rewrite node_of_args_as_new by apply args_of_not_element.
    + lia.
    + by rewrite Hdocs'.
    + intros q Hq Hne. rewrite Hold' by lia.
      unfold hb'. rewrite attach_child_other by lia. by apply Hold.
    + rewrite Hx'. unfold hb', attach_child. simpl.
      rewrite list_lookup_alter_eq, list_lookup_alter_ne by lia.
      rewrite Hold by done.
      destruct (heap_elements hi !! x) as [e|]; [|done]. simpl.
      unfold push_children, push_child. simpl. by rewrite <- app_assoc.
    + constructor.
      * intros h' Hsame. apply Hloc. intros q Hq.
        rewrite (Hsame q ltac:(lia)).
        rewrite Hold' by lia.
        apply attach_child_same_shape. lia.
      * eapply Forall2_impl; [exact Hkids|]. cbv beta.
        intros r' j' Hr' h' Hsame. apply Hr'.
        intros q Hq. apply Hsame. lia.
Qed.

Lemma declares_depth n : ∀ j, Json_depth j ≤ n → declares n j.
Proof.
  induction n as [|n IH]; intros [name0 cs a c] Hd; [cbn [Json_depth] in Hd; lia|].
  pose proof (Json_depth_children _ _ _ _ _ Hd) as Hcs.
  assert (Forall (declares n) cs) as Hdecl.
  { eapply Forall_impl; [exact Hcs|]. cbv beta. auto. }
  intros h.
  set (this := length (heap_elements h)).
  set (a' := mkNodeArgs name0 c a (Some (λ x, declare_all args_of x cs))).
  set (ha := with_new_element a' h).
  assert (length (heap_elements ha) = S this) as Hlen.
  { unfold ha, with_new_element, this. simpl. rewrite length_app. simpl. lia. }
  destruct (declare_all_declared n cs Hdecl ha this ltac:(lia))
    as (hf & new & Hrun & Hle & Hdocs & Hold & Hthis & Hnew).
  assert (heap_elements hf !! this = Some (mkXmlElement name0 a c None new)) as Hthis'.
  { rewrite Hthis. unfold ha, with_new_element, this. simpl.
    by rewrite lookup_app_r, Nat.sub_diag. }
  exists hf. split_and!.
  - rewrite (XmlElement_new_parsed _ a' _ (parseArgs_args_of _ _ _ _)).
    cbn [na_builder a']. fold this. fold ha. by rewrite Hrun.
  - lia.
  - by rewrite Hdocs.
  - intros q Hq. rewrite Hold by (fold this in Hq; lia).
    unfold ha, with_new_element. simpl. by rewrite lookup_app_l.
  - fold this. by rewrite Hthis'.
  - intros h' Hsame.
    pose proof (Hsame this ltac:(fold this; lia)) as Hshape.
    rewrite Hthis' in Hshape. fold this.
    destruct (heap_elements h' !! this) as [e'|] eqn:He'; [|done].
    injection Hshape as Hn Ha Hc Hch.
    rewrite XmlElement_toJSON_unfold, He'. cbn [mbind option_bind].
    assert (mapM (XmlElement_toJSON n h') (children e') = Some cs) as ->.
    { rewrite Hch. apply mapM_Some_2.
      eapply Forall2_impl; [exact Hnew|]. cbv beta.
      intros r j Hr. apply Hr. intros q Hq. apply Hsame. fold this. lia. }
    cbn [mbind option_bind]. by rewrite Hn, Ha, Hc.
Qed.

(** X7. Declaring a tree with the overloads and projecting it is a round
    trip. For any description [j] (a name, optional attributes, optional
    content, children), the call [new XmlElement(...)] or
    [parent.Node(...)] with the arguments that declare [j], children in a
    nested builder, returns a new, parentless (or attached) element whose
    [toJSON] is [j] itself; the elements that existed are untouched. *)
Theorem declared_tree_projects_back (j : Json) (h : Heap) :
  ∃ hb,
    let r := length (heap_elements h) in
    XmlElement_new (args_of j) h = (hb, Returned r) ∧
    XmlElement_toJSON (Json_depth j) hb r = Some j ∧
    parent <$> heap_elements hb !! r = Some None ∧
    (∀ q, q < r → heap_elements hb !! q = heap_elements h !! q) ∧
    (∀ this, this < r →
       let h' := attach_child this r hb in
       XmlElement_Node this (args_of j) h = (h', Returned r) ∧
       XmlElement_toJSON (Json_depth j) h' r = Some j ∧
       children <$> heap_elements h' !! this
         = (λ e, children e ++ [r]) <$> heap_elements h !! this).
Proof.
  destruct (declares_depth (Json_depth j) j (le_n _) h)
    as (hb & Hrun & Hlt & Hdocs & Hold & Hparent & Hloc).
  exists hb. cbv zeta. split_and!; [done| |done|done|].
  - apply Hloc. by intros q Hq.
  - intros this Hthis. split_and!.
    + apply XmlElement_Node_attach.
      by rewrite node_of_args_as_new by apply args_of_not_element.
    + apply Hloc. intros q Hq. apply attach_child_same_shape. lia.
    + rewrite attach_child_children. by rewrite Hold.
Qed.

(** The tree [<a k="v"><b>text</b><c /></a>], declared on its own and
    under an existing element. *)
Lemma declared_tree_projects_back_witness :
  let j := JsonObject "a" [JsonObject "b" [] None (Some "text"); JsonObject "c" [] None None]
             (Some [("k", "v")]) None in
  let h := mkHeap [mkXmlElement "x" None None None []] [] in
  ∃ h', XmlElement_Node 0 (args_of j) h = (h', Returned 1) ∧
        XmlElement_toJSON 2 h' 1 = Some j ∧
        children <$> heap_elements h' !! 0 = Some [1].
Proof.
  intros j h.
  destruct (declared_tree_projects_back j h) as (hb & _ & _ & _ & _ & Hnode).
  destruct (Hnode 0 (le_n 1)) as (Hrun & Hjson & Hch).
  eexists. split_and!.
  - exact Hrun.
  - exact Hjson.
  - exact Hch.
Defined.

(** ** Documents *)

Lemma attach_root_same_shape d node h q :
  shape <$> heap_elements (attach_root d node h) !! q = shape <$> heap_elements h !! q.
Proof.
  unfold attach_root. simpl. rewrite list_lookup_alter. case_decide; [|done].
  subst. by destruct (heap_elements h !! q).
Qed.

Lemma get_root_new_document h :
  get_root (length (heap_documents h))
    (mkHeap (heap_elements h) (heap_documents h ++ [mkXmlDocument None])) = None.
Proof. unfold get_root. simpl. by rewrite lookup_app_r, Nat.sub_diag. Qed.

Lemma XmlDocument_new_run builder h :
  XmlDocument_new builder h =
    let d := length (heap_documents h) in
    match builder d (mkHeap (heap_elements h) (heap_documents h ++ [mkXmlDocument None])) with
    | (h', Returned _) => (h', Returned d)
    | (h', Thrown err) => (h', Thrown err)
    end.
Proof.
  unfold XmlDocument_new, bind, alloc_document. simpl.
  by destruct (builder _ _) as [h' [[]|err]].
Qed.

(** X8. A document is what its builder made of it. With a builder that
    declares a tree [j] as the root, [new XmlDocument(builder)] returns a
    new document whose root is the new element, whose [toJSON] is [j] and
    whose [toString] is that of the root; with a builder that does
    nothing, the document has no root, its [toJSON] is the empty object
    and its [toString] the empty string. *)
Theorem XmlDocument_of_declared_tree (xmlFmt : string → string) (j : Json) (h : Heap) :
  let d := length (heap_documents h) in
  let r := length (heap_elements h) in
  (∃ h',
     XmlDocument_new (λ doc, XmlDocument_Node doc (args_of j) ;; ret tt) h
       = (h', Returned d) ∧
     get_root d h' = Some r ∧
     parent <$> heap_elements h' !! r = Some (Some (ParentDocument d)) ∧
     XmlDocument_toJSON (Json_depth j) h' d = Some (ElementObject j) ∧
     ∀ fuel fmt, XmlDocument_toString xmlFmt fuel h' d fmt
                 = XmlElement_toString xmlFmt fuel h' r fmt) ∧
  (∃ h',
     XmlDocument_new (λ _, ret tt) h = (h', Returned d) ∧
     get_root d h' = None ∧
     (∀ fuel, XmlDocument_toJSON fuel h' d = Some EmptyObject) ∧
     ∀ fuel fmt, XmlDocument_toString xmlFmt fuel h' d fmt = Some EmptyString).
Proof.
  intros d r.
  set (h1 := mkHeap (heap_elements h) (heap_documents h ++ [mkXmlDocument None])).
  pose proof (get_root_new_document h) as Hroot1. fold d h1 in Hroot1.
  split.
  - destruct (declares_depth (Json_depth j) j (le_n _) h1)
      as (hb & Hrun & Hlt & Hdocs & Hold & Hparent & Hloc).
    change (length (heap_elements h1)) with r in *.
    assert (XmlDocument_Node d (args_of j) h1 = (attach_root d r hb, Returned r)) as Hnode.
    { apply XmlDocument_Node_rootless; [done|].
      by rewrite node_of_args_as_new by apply args_of_not_element. }
    assert (get_root d (attach_root d r hb) = Some r) as Hroot.
    { apply get_root_attach_root. rewrite Hdocs. unfold h1, d. simpl.
      rewrite length_app. simpl. lia. }
    exists (attach_root d r hb). split_and!.
    + rewrite XmlDocument_new_run. fold d h1. cbv zeta. unfold bind. by rewrite Hnode.
    + done.
    + by apply parent_attach_root.
    + unfold XmlDocument_toJSON. rewrite Hroot.
      rewrite (Hloc (attach_root d r hb)); [done|].
      intros q _. apply attach_root_same_shape.
    + intros fuel fmt. unfold XmlDocument_toString. by rewrite Hroot.
  - exists h1. split_and!.
    + by rewrite XmlDocument_new_run.
    + done.
    + intros fuel. unfold XmlDocument_toJSON. by rewrite Hroot1.
    + intros fuel fmt. unfold XmlDocument_toString. by rewrite Hroot1.
Qed.

(** X9. A builder that roots the document and then calls [Node] again
    makes [new XmlDocument(builder)] throw the duplicate-root error: the
    error of the second call passes through the builder and the
    constructor, no document is returned, and the store keeps the document
    with its first root. *)
Theorem XmlDocument_new_second_root_throws (h : Heap) (args1 args2 : list Arg)
    (a : NodeArgs) (hb : Heap) :
  let d := length (heap_documents h) in
  let r := length (heap_elements h) in
  let h1 := mkHeap (heap_elements h) (heap_documents h ++ [mkXmlDocument None]) in
  parseArgs args1 = inr a →
  builder_returns (na_builder a) r (with_new_element a h1) hb →
  XmlDocument_new (λ doc, XmlDocument_Node doc args1 ;; XmlDocument_Node doc args2 ;; ret tt) h
    = (attach_root d r hb, Thrown duplicate_root_error) ∧
  get_root d (attach_root d r hb) = Some r.
Proof.
  intros d r h1 Hp Hb.
  pose proof (get_root_new_document h) as Hroot1. fold d h1 in Hroot1.
  destruct (new_element_allocated a h1 hb (builder_returns_grows _ _ _ _ Hb)) as [Hn Hd].
  assert (get_root d (attach_root d r hb) = Some r) as Hroot.
  { apply get_root_attach_root. unfold h1 in Hd. simpl in Hd.
    rewrite length_app in Hd. simpl in Hd. unfold d. lia. }
  split; [|done].
  rewrite XmlDocument_new_run. fold d h1. cbv zeta. unfold bind.
  rewrite (XmlDocument_Node_rootless d args1 h1 hb r Hroot1
             (node_of_args_returns _ a _ _ Hp Hb)).
  by rewrite (XmlDocument_Node_rooted d r args2 _ Hroot).
Qed.

(** [new XmlDocument(x => { x.Node("a"); x.Node("b") })]. *)
Lemma XmlDocument_new_second_root_throws_witness :
  XmlDocument_new (λ doc, XmlDocument_Node doc [ArgString "a"] ;;
                          XmlDocument_Node doc [ArgString "b"] ;; ret tt) empty_heap
  = (mkHeap [mkXmlElement "a" None None (Some (ParentDocument 0)) []]
            [mkXmlDocument (Some 0)],
     Thrown duplicate_root_error).
Proof.
  exact (proj1 (XmlDocument_new_second_root_throws empty_heap [ArgString "a"] [ArgString "b"]
                  _ _ eq_refl eq_refl)).
Defined.

(** ** Roots *)

Lemma rootNode_from_is_root s fuel this r :
  rootNode_from fuel s this = Some r → ancestor s this r ∧ is_root s r.
Proof.
  revert this. induction fuel as [|fuel IH]; intros this; [done|].
  cbn [rootNode_from]. destruct (s !! this) as [c|] eqn:Hc; [|done].
  cbn [mbind option_bind]. destruct (scope c) as [p|] eqn:Hp.
  - intros [Hanc Hroot]%IH. split; [|done]. by eapply ancestor_up.
  - intros [= <-]. split; [constructor|]. by exists c.
Qed.

Lemma rootNode_from_more_fuel s fuel fuel' this r :
  fuel ≤ fuel' → rootNode_from fuel s this = Some r → rootNode_from fuel' s this = Some r.
Proof.
  revert fuel' this. induction fuel as [|fuel IH]; intros fuel' this Hle; [done|].
  destruct fuel' as [|fuel']; [lia|].
  cbn [rootNode_from]. destruct (s !! this) as [c|]; [|done]. cbn [mbind option_bind].
  destruct (scope c); [|done]. apply IH. lia.
Qed.

Lemma ancestor_root_unique s this r1 r2 :
  ancestor s this r1 → is_root s r1 → ancestor s this r2 → is_root s r2 → r1 = r2.
Proof.
  intros H1. revert r2. induction H1 as [this|this c p r1 Hc Hp _ IH]; intros r2 Hr1 H2 Hr2.
  - destruct Hr1 as (c & Hc & Hnone).
    destruct H2 as [|this c' p r2 Hc' Hp' _]; [done|]. congruence.
  - destruct H2 as [this|this c' p' r2 Hc' Hp' H2].
    + destruct Hr2 as (c' & Hc' & Hnone). congruence.
    + apply IH; [done| |done]. congruence.
Qed.

Lemma rootNode_root s r : r < length s → is_root s r → _rootNode s r = Some r.
Proof.
  intros Hlt (c & Hc & Hnone). unfold _rootNode.
  destruct (length s) as [|n]; [lia|].
  cbn [rootNode_from]. rewrite Hc. cbn [mbind option_bind]. by rewrite Hnone.
Qed.

(** X10. The root that [_rootNode] returns for a construct is the one
    construct without a scope among those reached by walking up from it;
    it is its own root, and it is also the root of the construct's scope:
    a construct and its scope always agree on the root. *)
Theorem rootNode_is_the_unique_root (s : Store) (this r : ref) :
  _rootNode s this = Some r →
  ancestor s this r ∧ is_root s r ∧
  (∀ r', ancestor s this r' → is_root s r' → r' = r) ∧
  _rootNode s r = Some r ∧
  (∀ c p, s !! this = Some c → scope c = Some p → _rootNode s p = Some r).
Proof.
  intros Hr. destruct (rootNode_from_is_root _ _ _ _ Hr) as [Hanc Hroot].
  split_and!; [done..| | |].
  - intros r' Hanc' Hroot'. by eapply ancestor_root_unique.
  - apply rootNode_root; [|done]. destruct Hroot as (c & Hc & _). by eapply lookup_lt_Some.
  - intros c p Hc Hp. unfold _rootNode in *.
    destruct (length s) as [|n] eqn:Hlen; [done|].
    cbn [rootNode_from] in Hr. rewrite Hc in Hr. cbn [mbind option_bind] in Hr.
    rewrite Hp in Hr. eapply rootNode_from_more_fuel; [|exact Hr]. lia.
Qed.

(** A project, a build in it, a trigger in the build. *)
Lemma rootNode_is_the_unique_root_witness :
  let s := [mkConstruct None ∅ []; mkConstruct (Some 0) ∅ [];
            mkConstruct (Some 1) ∅ []] in
  _rootNode s 0 = Some 0 ∧ _rootNode s 1 = Some 0.
Proof.
  intros s.
  destruct (rootNode_is_the_unique_root s 2 0 eq_refl) as (_ & _ & _ & Hroot & Hscope).
  split.
  - exact Hroot.
  - exact (Hscope _ 1 eq_refl eq_refl).
Defined.

Lemma rootNode_from_app s s' fuel this r :
  rootNode_from fuel s this = Some r → rootNode_from fuel (s ++ s') this = Some r.
Proof.
  revert this. induction fuel as [|fuel IH]; intros this; [done|].
  cbn [rootNode_from]. destruct (s !! this) as [c|] eqn:Hc; [|done].
  rewrite (lookup_app_l_Some _ _ _ _ Hc). cbn [mbind option_bind].
  destruct (scope c); [apply IH|done].
Qed.

(** X11. The constructor puts the new construct in the tree of its
    scope: constructed with an existing scope, it has the root of that
    scope; constructed with [null], it is a root itself. It starts with
    both registries empty, and the constructs that existed keep their
    fields and their roots. *)
Theorem Construct_new_joins_tree (s : Store) (sc : option ref) :
  (∀ p, sc = Some p → is_Some (_rootNode s p)) →
  let s' := (Construct_new sc None s).1 in
  let this := (Construct_new sc None s).2 in
  this = length s ∧
  s' !! this = Some (mkConstruct sc ∅ []) ∧
  (∀ q c, s !! q = Some c → s' !! q = Some c) ∧
  (∀ q r, _rootNode s q = Some r → _rootNode s' q = Some r) ∧
  (∀ p, sc = Some p → _rootNode s' this = _rootNode s p) ∧
  (sc = None → _rootNode s' this = Some this).
Proof.
  intros Hsc s' this.
  assert (s' = s ++ [mkConstruct sc ∅ []]) as -> by done.
  assert (this = length s) as -> by done.
  assert ((s ++ [mkConstruct sc ∅ []]) !! length s = Some (mkConstruct sc ∅ [])) as Hnew.
  { by rewrite lookup_app_r, Nat.sub_diag. }
  assert (∀ q r, _rootNode s q = Some r → _rootNode (s ++ [mkConstruct sc ∅ []]) q = Some r)
    as Hkeep.
  { intros q r Hr. unfold _rootNode in *. rewrite length_app. simpl.
    apply rootNode_from_app. eapply rootNode_from_more_fuel; [|exact Hr]. lia. }
  split_and!; [done|done| | | |].
  - intros q c Hc. by apply lookup_app_l_Some.
  - done.
  - intros p ->. destruct (Hsc p eq_refl) as [r Hr]. rewrite Hr.
    specialize (Hkeep p r Hr). unfold _rootNode in *.
    rewrite length_app in *. simpl in *. rewrite Nat.add_1_r in *.
    cbn [rootNode_from]. rewrite Hnew. cbn [mbind option_bind scope].
    apply rootNode_from_app. apply rootNode_from_more_fuel with (fuel := length s); [lia|].
    exact Hr.
  - intros ->. unfold _rootNode. rewrite length_app. simpl. rewrite Nat.add_1_r.
    cbn [rootNode_from]. by rewrite Hnew.
Qed.

(** A build constructed in a project. *)
Lemma Construct_new_joins_tree_witness :
  let s := [mkConstruct None ∅ []] in
  (Construct_new (Some 0) None s).1 = [mkConstruct None ∅ []; mkConstruct (Some 0) ∅ []] ∧
  _rootNode (Construct_new (Some 0) None s).1 1 = Some 0.
Proof.
  intros s.
  assert (∀ p, Some 0 = Some p → is_Some (_rootNode s p)) as Hsc.
  { intros p [= <-]. by eexists. }
  destruct (Construct_new_joins_tree s (Some 0) Hsc) as (_ & _ & _ & _ & Hroot & _).
  split.
  - reflexivity.
  - exact (Hroot 0 eq_refl).
Defined.

(** ** Registrations are permanent *)

Lemma Map_get_app_l {K V} `{EqDecision K} (m m' : list (K * V)) k v :
  Map_get m k = Some v → Map_get (m ++ m') k = Some v.
Proof.
  induction m as [|[k' v'] m IH]; [done|]. simpl.
  destruct (decide (k' = k)); [done|]. apply IH.
Qed.

Lemma Map_get_add_if_absent {K V} `{EqDecision K} (m : list (K * V)) kv k v :
  Map_get m k = Some v → Map_get (add_if_absent m kv) k = Some v.
Proof.
  intros Hk. destruct kv as [k' v']. destruct (decide (k' ∈ m.*1)) as [Hin|Hnot].
  - by rewrite add_if_absent_present.
  - rewrite add_if_absent_absent by done. by apply Map_get_app_l.
Qed.

(** Each step rewrites at most one construct, and leaves in it what was
    registered. *)
Lemma step_lookup s st r c :
  s !! r = Some c →
  ∃ c', step s st !! r = Some c' ∧
        (∀ path d, _xmlDocs c !! path = Some d → _xmlDocs c' !! path = Some d) ∧
        (∀ k b, Map_get (_xmlBuilders c) k = Some b →
                Map_get (_xmlBuilders c') k = Some b).
Proof.
  intros Hc. assert (r < length s) as Hlt by (by eapply lookup_lt_Some).
  destruct st as [sc|this path' doc|this sym b']; simpl.
  - exists c. split; [by apply lookup_app_l_Some|done].
  - unfold _addXmlDoc. destruct (_rootNode s this) as [r'|]; [|by exists c].
    destruct (s !! r') as [c'|] eqn:Hc'; cbn [fmap option_fmap option_map];
      [|by exists c].
    unfold get_property.
    destruct (_xmlDocs c' !! path') as [first|] eqn:Hp; [by exists c|].
    destruct (bool_decide (path' ∈ Object_prototype)); [by exists c|].
    rewrite (list_alter_lookup (λ c, set_xmlDocs (<[path' := doc]> (_xmlDocs c)) c) _ _ _ Hc').
    destruct (decide (r' = r)) as [->|Hne].
    + assert (c' = c) as -> by congruence.
      eexists. split; [by apply list_lookup_insert_eq|]. split; [|done].
      intros path d Hd. simpl. rewrite lookup_insert_ne; [done|]. congruence.
    + exists c. by rewrite list_lookup_insert_ne.
  - destruct (s !! this) as [c'|] eqn:Hc'.
    + rewrite (addXmlBuilder_lookup _ _ _ _ _ Hc').
      destruct (decide (this = r)) as [->|Hne].
      * assert (c' = c) as -> by congruence.
        eexists. split; [by apply list_lookup_insert_eq|]. split; [done|].
        intros k b Hb. simpl. by apply Map_get_add_if_absent.
      * exists c. by rewrite list_lookup_insert_ne.
    + unfold _addXmlBuilder. rewrite list_alter_unallocated by done. by exists c.
Qed.

(** X12. Nothing that the base class offers removes or replaces a
    registration: through any run of constructions, [_addXmlDoc] calls
    and [_addXmlBuilder] calls, on any constructs and with any arguments,
    a path that holds a document goes on holding that document, and a key
    that holds a callback goes on holding that callback. *)
Theorem registrations_are_permanent (steps : list Step) (s : Store) (r : ref) :
  (∀ path d, registered s r path d → registered (run steps s) r path d) ∧
  (∀ k b, registered_builder s r k b → registered_builder (run steps s) r k b).
Proof.
  revert s. induction steps as [|st steps IH]; intros s; [done|].
  unfold run in *. cbn [foldl]. split.
  - intros path d (c & Hc & Hd). apply IH.
    destruct (step_lookup s st r c Hc) as (c' & Hc' & Hdocs & _).
    exists c'. split; [done|]. by apply Hdocs.
  - intros k b (c & Hc & Hb). apply IH.
    destruct (step_lookup s st r c Hc) as (c' & Hc' & _ & Hbs).
    exists c'. split; [done|]. by apply Hbs.
Qed.

(** A document and a callback on a project, then a build constructed in
    it that proposes another document at the same path, and another
    callback proposed under the same key. *)
Lemma registrations_are_permanent_witness :
  let b (tag : string) : Builder := λ x, XmlElement_Node x [ArgString tag] ;; ret tt in
  let s := [mkConstruct None (<["p.xml" := 5]> ∅) [(KeyFunction 1, b "first")]] in
  let steps := [StepNew (Some 0); StepAddXmlDoc 1 "p.xml" 6;
                StepAddXmlBuilder 0 (KeyFunction 1) (b "second")] in
  registered (run steps s) 0 "p.xml" 5 ∧
  registered_builder (run steps s) 0 (KeyFunction 1) (b "first").
Proof.
  intros b s steps.
  destruct (registrations_are_permanent steps s 0) as [Hdoc Hb].
  split.
  - apply Hdoc. eexists. split; [reflexivity|]. simpl. apply lookup_insert_eq.
  - apply Hb. eexists. split; reflexivity.
Defined.

(** ** Runs of [push] *)

Lemma push_first s scope key v o :
  objects s !! scope = Some o →
  (∀ a, o !! key = Some (VArray a) → a < length (arrays s)) →
  let s1 := push scope key v s in
  ∃ a items o1,
    objects s1 !! scope = Some o1 ∧
    o1 !! key = Some (VArray a) ∧
    arrays s1 !! a = Some (items ++ [v]) ∧
    (∀ a0, get scope key s = VArray a0 → a = a0 ∧ arrays s !! a0 = Some items) ∧
    (isArray (get scope key s) = false → a = length (arrays s) ∧ items = []) ∧
    (∀ scope' key', get scope' key' s = VArray a → get scope' key' s1 = VArray a).
Proof.
  intros Ho Hwf s1.
  pose proof (get_lookup scope key s o Ho) as Hget.
  destruct (isArray (get scope key s)) eqn:Harr.
  - destruct (get scope key s) as [| a0 | |] eqn:Hv; try done.
    assert (o !! key = Some (VArray a0)) as Hk.
    { rewrite Hget in Hv. by destruct (o !! key) as [[]|]; simplify_eq/=. }
    destruct (lookup_lt_is_Some_2 _ _ (Hwf a0 Hk)) as [items Hitems].
    assert (s1 = mkObjects (alter (λ l, l ++ [v]) a0 (arrays s)) (objects s)) as ->
      by (by apply (push_array _ _ _ _ o)).
    exists a0, items, o. split_and!; try done.
    + simpl. by rewrite list_lookup_alter_eq, Hitems.
    + by intros ? [= <-].
  - assert (s1 = mkObjects (arrays s ++ [[v]])
                   (<[scope := <[key := VArray (length (arrays s))]> o]> (objects s))) as ->.
    { apply push_fresh; [done|]. by rewrite <- Hget. }
    assert (scope < length (objects s)) as Hlt by (by eapply lookup_lt_Some).
    exists (length (arrays s)), [], (<[key := VArray (length (arrays s))]> o).
    split_and!; try done.
    + simpl. by apply list_lookup_insert_eq.
    + by rewrite lookup_insert_eq.
    + simpl. by rewrite lookup_app_r, Nat.sub_diag.
    + intros a0 Ha0. by rewrite Ha0 in Harr.
    + intros scope' key' Hg. unfold get. simpl.
      destruct (decide (scope' = scope)) as [->|Hne].
      * rewrite list_lookup_insert_eq by done. simpl.
        destruct (decide (key' = key)) as [->|Hk]; [by rewrite lookup_insert_eq|].
        rewrite lookup_insert_ne by done.
        unfold get in Hg. by rewrite Ho in Hg.
      * by rewrite list_lookup_insert_ne.
Qed.

Lemma push_all_array vs : ∀ scope key s o a items,
  objects s !! scope = Some o →
  o !! key = Some (VArray a) →
  arrays s !! a = Some items →
  objects (push_all scope key vs s) = objects s ∧
  arrays (push_all scope key vs s) !! a = Some (items ++ vs).
Proof.
  induction vs as [|v vs IH]; intros scope key s o a items Ho Hk Ha.
  - unfold push_all. simpl. by rewrite app_nil_r.
  - unfold push_all in *. cbn [foldl].
    rewrite (push_array scope key v s o a Ho Hk).
    set (s1 := mkObjects (alter (λ l, l ++ [v]) a (arrays s)) (objects s)).
    destruct (IH scope key s1 o a (items ++ [v]) Ho Hk) as (Hobj & Harr).
    { unfold s1. simpl. by rewrite list_lookup_alter_eq, Ha. }
    split; [done|]. by rewrite Harr, <- app_assoc.
Qed.

(** X13. Pushes accumulate in one array. After the pushes of [v :: vs]
    on [scope[key]], in that order, the property holds one array whose
    items are the former items (none, if the property held no array)
    followed by [v :: vs] in the order they were pushed. The array that
    the first push found or made is the one every later push reuses: the
    later pushes leave all properties of all objects as the first push
    left them, and whatever else held that array before (another key,
    another object) still holds it and so sees the new items too. *)
Theorem push_all_accumulates (s : Objects) (scope : ref) (key : string)
    (v : Value) (vs : list Value) (o : gmap string Value) :
  objects s !! scope = Some o →
  (∀ a, o !! key = Some (VArray a) → a < length (arrays s)) →
  let s1 := push scope key v s in
  let s' := push_all scope key (v :: vs) s in
  ∃ a items,
    get scope key s1 = VArray a ∧
    get scope key s' = VArray a ∧
    arrays s' !! a = Some (items ++ v :: vs) ∧
    (∀ a0, get scope key s = VArray a0 → a = a0 ∧ arrays s !! a0 = Some items) ∧
    (isArray (get scope key s) = false → a = length (arrays s) ∧ items = []) ∧
    (∀ scope' key', get scope' key' s = VArray a → get scope' key' s' = VArray a) ∧
    objects s' = objects s1.
Proof.
  intros Ho Hwf s1 s'.
  destruct (push_first s scope key v o Ho Hwf)
    as (a & items & o1 & Ho1 & Hk1 & Ha1 & Hold & Hnew & Hkeep).
  fold s1 in Ho1, Ha1, Hkeep.
  assert (s' = push_all scope key vs s1) as -> by done.
  destruct (push_all_array vs scope key s1 o1 a (items ++ [v]) Ho1 Hk1 Ha1)
    as (Hobj & Harr).
  exists a, items. split_and!.
  - unfold get. by rewrite Ho1; simpl; rewrite Hk1.
  - unfold get. by rewrite Hobj, Ho1; simpl; rewrite Hk1.
  - by rewrite Harr, <- app_assoc.
  - done.
  - done.
  - intros scope' key' Hg. specialize (Hkeep _ _ Hg). unfold get in *. by rewrite Hobj.
  - done.
Qed.

(** A project whose [builds] and [allBuilds] hold one array: three builds
    pushed on [builds] show up, in order, under both keys. *)
Lemma push_all_accumulates_witness :
  let o : gmap string Value := <["builds" := VArray 0]> (<["allBuilds" := VArray 0]> ∅) in
  let s := mkObjects [[VOther 7]] [o] in
  let s' := push_all 0 "builds" [VOther 1; VOther 2; VOther 3] s in
  get 0 "allBuilds" s' = VArray 0 ∧
  arrays s' !! 0 = Some [VOther 7; VOther 1; VOther 2; VOther 3].
Proof.
  intros o s s'.
  assert (∀ a, o !! "builds" = Some (VArray a) → a < length (arrays s)) as Hwf.
  { intros a. unfold o. rewrite lookup_insert_eq. intros [= <-]. simpl. lia. }
  destruct (push_all_accumulates s 0 "builds" (VOther 1) [VOther 2; VOther 3] o eq_refl Hwf)
    as (a & items & _ & _ & Harr & Hold & _ & Hkeep & _).
  destruct (Hold 0 eq_refl) as [-> Hitems].
  injection Hitems as <-.
  split.
  - apply Hkeep. reflexivity.
  - exact Harr.
Defined.

(** ** SharedResourceProjectExtension.toXml *)

Import SharedResourceProjectExtension.

Lemma bind_ext {A B} (m m' : M A) (k k' : A → M B) h :
  m h = m' h → (∀ a h, k a h = k' a h) → bind m k h = bind m' k' h.
Proof. intros Hm Hk. unfold bind. rewrite Hm. destruct (m' h) as [h' [a|e]]; auto. Qed.

Lemma bind_assoc {A B C} (m : M A) (k : A → M B) (k' : B → M C) h :
  bind (bind m k) k' h = bind m (λ a, bind (k a) k') h.
Proof. unfold bind. by destruct (m h) as [h' [a|e]]. Qed.

Lemma bind_ret_l {A B} (a : A) (k : A → M B) h : bind (ret a) k h = k a h.
Proof. reflexivity. Qed.

(** A builder may be replaced by one that does the same on every store. *)
Lemma XmlElement_new_builder_ext n o (b b' : Builder) h :
  (∀ x h, b x h = b' x h) →
  XmlElement_new [ArgString n; ArgObject o; ArgFunction b] h
  = XmlElement_new [ArgString n; ArgObject o; ArgFunction b'] h.
Proof.
  intros Hb. unfold XmlElement_new. simpl. unfold bind. simpl. by rewrite Hb.
Qed.

Lemma XmlElement_Node_builder_ext x n o (b b' : Builder) h :
  (∀ x h, b x h = b' x h) →
  XmlElement_Node x [ArgString n; ArgObject o; ArgFunction b] h
  = XmlElement_Node x [ArgString n; ArgObject o; ArgFunction b'] h.
Proof.
  intros Hb. unfold XmlElement_Node, node_of_args, XmlElement_new. simpl.
  unfold bind. simpl. by rewrite Hb.
Qed.

(** A call without a builder declares a childless element. *)
Lemma XmlElement_Node_attributes_only x n o h :
  XmlElement_Node x [ArgString n; ArgObject o] h
  = XmlElement_Node x (args_of (JsonObject n [] (Some o) None)) h.
Proof. reflexivity. Qed.

Lemma XmlElement_CDATA_declares x v h :
  XmlElement_CDATA x v h
  = XmlElement_Node x (args_of (JsonObject cdata_name [] None (Some v))) h.
Proof. reflexivity. Qed.

(** The body of the builder of [toXml] declares the params one after
    the other. *)
Lemma toXml_builder_declares {Number} (p : Props Number) x h0 k1 k2 k3
    (Number_toString : Number → string) :
  (XmlElement_Node x [ArgString "param"; ArgObject k1] ;;
   XmlElement_Node x [ArgString "param"; ArgObject k2] ;;
   XmlElement_Node x [ArgString "param"; ArgObject k3] ;;
   match quota p with
   | Some q =>
       XmlElement_Node x
         [ArgString "param";
          ArgObject [("name", "quota"); ("value", Number_toString q)]] ;;
       ret tt
   | None => ret tt
   end ;;
   match values p with
   | Some vs =>
       XmlElement_Node x
         [ArgString "param"; ArgObject [("name", "values")];
          ArgFunction (λ x, XmlElement_CDATA x (join newline vs) ;; ret tt)] ;;
       ret tt
   | None => ret tt
   end)%js h0
  = declare_all args_of x
      ([JsonObject "param" [] (Some k1) None;
        JsonObject "param" [] (Some k2) None;
        JsonObject "param" [] (Some k3) None]
       ++ match quota p with
          | Some q =>
              [JsonObject "param" []
                 (Some [("name", "quota"); ("value", Number_toString q)]) None]
          | None => []
          end
       ++ match values p with
          | Some vs =>
              [JsonObject "param"
                 [JsonObject cdata_name [] None (Some (join newline vs))]
                 (Some [("name", "values")]) None]
          | None => []
          end) h0.
Proof.
  cbn [app declare_all].
  do 3 (apply bind_ext; [apply XmlElement_Node_attributes_only|intros _ ?]).
  destruct (quota p) as [q|]; cbn [app declare_all].
  all: rewrite ?bind_assoc, ?bind_ret_l.
  1: apply bind_ext; [apply XmlElement_Node_attributes_only|intros _ ?];
     rewrite ?bind_ret_l.
  all: destruct (values p) as [vs|]; cbn [app declare_all]; [|reflexivity].
  all: apply bind_ext; [|reflexivity].
  all: apply (XmlElement_Node_builder_ext _ "param" _ _
                (λ x, declare_all args_of x
                        [JsonObject cdata_name [] None (Some (join newline vs))])).
  all: intros x' h'; cbn [declare_all].
  all: apply bind_ext; [apply XmlElement_CDATA_declares|reflexivity].
Qed.

(** X14. What [toXml] declares, for any props, whatever the declared
    type allows. The call never throws; it returns a new parentless
    element [extension] carrying [id] and the fixed [type], whose
    children are, in this order: the params [name], [enabled] (["true"]
    when [enabled] is unset) and [type], then a param [quota] when a
    quota is given, then a param [values] when values are given, holding
    one CDATA child with the values joined by line feeds. The [type] is
    ["quoted"] only for a truthy quota: a quota of 0 is declared as
    ["custom"], and its [quota] param is still emitted. *)
Theorem SharedResource_toXml_tree {Number : Type} (truthy : Number → bool)
    (Number_toString : Number → string) (p : Props Number) (h : Heap) :
  let r := length (heap_elements h) in
  let param n v := JsonObject "param" [] (Some [("name", n); ("value", v)]) None in
  let kids :=
    [param "name" (name p);
     param "enabled" (if default true (enabled p) then "true" else "false");
     param "type" (type_of truthy p)]
    ++ match quota p with
       | Some q => [param "quota" (Number_toString q)]
       | None => []
       end
    ++ match values p with
       | Some vs =>
           [JsonObject "param" [JsonObject cdata_name [] None (Some (join newline vs))]
              (Some [("name", "values")]) None]
       | None => []
       end in
  ∃ h',
    toXml truthy Number_toString p h = (h', Returned r) ∧
    XmlElement_toJSON 3 h' r
    = Some (JsonObject "extension" kids
              (Some [("id", id p); ("type", "JetBrains.SharedResources")]) None) ∧
    parent <$> heap_elements h' !! r = Some None ∧
    heap_documents h' = heap_documents h ∧
    (∀ q, q < r → heap_elements h' !! q = heap_elements h !! q) ∧
    (type_of truthy p = "quoted" ↔ ∃ q, quota p = Some q ∧ truthy q = true) ∧
    (∀ q, quota p = Some q → truthy q = false →
       param "type" "custom" ∈ kids ∧ param "quota" (Number_toString q) ∈ kids).
Proof.
  cbv zeta.
  remember ([JsonObject "param" [] (Some [("name", "name"); ("value", name p)]) None;
             JsonObject "param" []
               (Some [("name", "enabled");
                      ("value", if default true (enabled p) then "true" else "false")]) None;
             JsonObject "param" [] (Some [("name", "type"); ("value", type_of truthy p)]) None]
            ++ match quota p with
               | Some q =>
                   [JsonObject "param" []
                      (Some [("name", "quota"); ("value", Number_toString q)]) None]
               | None => []
               end
            ++ match values p with
               | Some vs =>
                   [JsonObject "param"
                      [JsonObject cdata_name [] None (Some (join newline vs))]
                      (Some [("name", "values")]) None]
               | None => []
               end) as kids eqn:Hkids.
  remember (JsonObject "extension" kids
              (Some [("id", id p); ("type", "JetBrains.SharedResources")]) None)
    as j eqn:Hj.
  assert (type_of truthy p = "quoted" ↔ ∃ q, quota p = Some q ∧ truthy q = true) as Htype.
  { unfold type_of. destruct (quota p) as [q|].
    - destruct (truthy q) eqn:Hq; split.
      + intros _. by exists q.
      + done.
      + intros [=].
      + intros (q' & [= <-] & Hq'). congruence.
    - split; [intros [=]|]. by intros (? & [=] & ?). }
  assert (∀ q, quota p = Some q → truthy q = false →
            JsonObject "param" [] (Some [("name", "type"); ("value", "custom")]) None ∈ kids ∧
            JsonObject "param" [] (Some [("name", "quota"); ("value", Number_toString q)]) None
              ∈ kids) as Hzero.
  { intros q Hq Hfalse. rewrite Hkids. unfold type_of. rewrite Hq, Hfalse. split.
    - do 2 apply list_elem_of_further. apply list_elem_of_here.
    - do 3 apply list_elem_of_further. apply list_elem_of_here. }
  assert (Json_depth j ≤ 3) as Hdepth.
  { rewrite Hj, Hkids. destruct (quota p), (values p); cbn; lia. }
  assert (toXml truthy Number_toString p h = XmlElement_new (args_of j) h) as Hrun.
  { unfold toXml. rewrite Hj. cbn [args_of app].
    apply XmlElement_new_builder_ext. intros x h0. rewrite Hkids.
    apply toXml_builder_declares. }
  destruct (declares_depth 3 j Hdepth h) as (hb & Hnew & _ & Hdocs & Hold & Hparent & Hloc).
  exists hb. split_and!.
  - rewrite Hrun. exact Hnew.
  - apply Hloc. intros q Hq. reflexivity.
  - exact Hparent.
  - exact Hdocs.
  - exact Hold.
  - exact Htype.
  - exact Hzero.
Qed.

(** A resource with a quota of 0, numbers being integers here. *)
Lemma SharedResource_toXml_tree_witness :
  let p := mkProps "PROJECT_EXT_1" "db" None (Some 0%Z) None in
  ∃ h',
    toXml (λ z, bool_decide (z ≠ 0%Z)) pretty p empty_heap = (h', Returned 0) ∧
    XmlElement_toJSON 3 h' 0
    = Some (JsonObject "extension"
              [JsonObject "param" [] (Some [("name", "name"); ("value", "db")]) None;
               JsonObject "param" [] (Some [("name", "enabled"); ("value", "true")]) None;
               JsonObject "param" [] (Some [("name", "type"); ("value", "custom")]) None;
               JsonObject "param" [] (Some [("name", "quota"); ("value", "0")]) None]
              (Some [("id", "PROJECT_EXT_1"); ("type", "JetBrains.SharedResources")]) None).
Proof.
  intros p.
  destruct (SharedResource_toXml_tree (λ z, bool_decide (z ≠ 0%Z)) pretty p empty_heap) as (h' & Hrun & Hjson & _).
  exists h'. split.
  - exact Hrun.
  - exact Hjson.
Defined.
